(** * Personal assistant: free-text command resolver and guarded input loop

    A shallow embedding of [personal-assist.py]: the similarity score
    ([similar], i.e. [difflib.SequenceMatcher(None, a, b).ratio()]), the
    command resolver ([suggest_command]) with its catalogue of trigger
    phrases, the field validators, the input decorator
    ([handle_user_input]), the classes [Record], [AddressBook], [Note] and
    [NoteBook] as far as [main] uses them by key, the choice of the branch
    in the main loop, and the branches of [main] that add, edit and delete
    contacts and notes.  Searching and listing (which go by the order of
    the dictionaries and by today's date) and the pickle files are not
    modelled.

    Conventions.
    - A Python [str] is the list of its Unicode code points ([list N]):
      [len], indexing and [SequenceMatcher] all work on code points.
    - A Python [dict] is a [gmap]; the catalogue, whose iteration order
      decides ties, is an association list in insertion order.
    - The float [2.0 * matches / length] is the exact rational of the same
      quotient ([Qc]).  Two such quotients, and such a quotient and 0.3, compare
      in IEEE double arithmetic as they do exactly as long as
      [len(a) + len(b)] stays below 2^26.
    - Console I/O is explicit: the lines still to be read on stdin are threaded
      through, and what was written is returned as a list of events.
    - A record or a note that a method changes in place is written back
      under the key it was looked up by; the program never files one object
      under two keys. *)

From Stdlib Require Import QArith Qcanon String Ascii.
From stdpp Require Import gmap list numbers strings.

Abbreviation pystr := (list N).

(** ** Strings *)

(** Source literals are written as UTF-8 text and decoded to code points. *)
Fixpoint utf8_decode (bs : list N) : pystr :=
  match bs with
  | [] => []
  | b0 :: r0 =>
    if (b0 <? 128)%N then b0 :: utf8_decode r0
    else if (b0 <? 224)%N then
      match r0 with
      | b1 :: r1 =>
        N.lor (N.shiftl (N.land b0 31) 6) (N.land b1 63) :: utf8_decode r1
      | _ => []
      end
    else if (b0 <? 240)%N then
      match r0 with
      | b1 :: b2 :: r2 =>
        N.lor (N.shiftl (N.land b0 15) 12)
          (N.lor (N.shiftl (N.land b1 63) 6) (N.land b2 63)) :: utf8_decode r2
      | _ => []
      end
    else
      match r0 with
      | b1 :: b2 :: b3 :: r3 =>
        N.lor (N.shiftl (N.land b0 7) 18)
          (N.lor (N.shiftl (N.land b1 63) 12)
             (N.lor (N.shiftl (N.land b2 63) 6) (N.land b3 63))) :: utf8_decode r3
      | _ => []
      end
  end.

Definition py (s : string) : pystr :=
  utf8_decode (map N_of_ascii (list_ascii_of_string s)).

(** [str.lower()], one code point at a time, for the scripts the program is
    used with: it is Python's mapping on Basic Latin and the Latin-1
    Supplement (U+0000..U+00FF) and on the Cyrillic letters U+0400..U+045F,
    U+0490 and U+0491, which hold the Ukrainian alphabet.  Code points outside
    these ranges are returned unchanged. *)
Definition lower_cp (c : N) : N :=
  if (65 <=? c)%N && (c <=? 90)%N then (c + 32)%N
  else if (192 <=? c)%N && (c <=? 222)%N && negb (c =? 215)%N then (c + 32)%N
  else if (1024 <=? c)%N && (c <=? 1039)%N then (c + 80)%N
  else if (1040 <=? c)%N && (c <=? 1071)%N then (c + 32)%N
  else if (c =? 1168)%N then 1169%N
  else c.

Definition lower (s : pystr) : pystr := map lower_cp s.

(** ** [difflib.SequenceMatcher] with [isjunk=None] and [autojunk=True] *)

Module difflib.

(** A matching block [(i, j, k)]: [a[i:i+k] == b[j:j+k]]. *)
Abbreviation Match := (nat * nat * nat)%type.

(** [__chain_b], first loop:
    [for i, elt in enumerate(b): b2j.setdefault(elt, []).append(i)]. *)
Fixpoint index_elements (i : nat) (b : pystr) (b2j : gmap N (list nat))
    : gmap N (list nat) :=
  match b with
  | [] => b2j
  | elt :: b' =>
    index_elements (S i) b' (<[elt := default [] (b2j !! elt) ++ [i]]> b2j)
  end.

(** [__chain_b]: with [isjunk] absent there is no junk; when [b] has 200
    elements or more, every element occurring more than [n // 100 + 1]
    times is "popular" and is deleted from [b2j]. *)
Definition chain_b (b : pystr) : gmap N (list nat) :=
  let b2j := index_elements 0 b ∅ in
  let n := length b in
  if bool_decide (200 ≤ n) then
    let ntest := n `div` 100 + 1 in
    filter (λ p, ¬ (ntest < length p.2)) b2j
  else b2j.

(** [a[i] == b[j]], both indices in range. *)
Definition same (a : pystr) (i : nat) (b : pystr) (j : nat) : bool :=
  match a !! i, b !! j with
  | Some x, Some y => bool_decide (x = y)
  | _, _ => false
  end.

Section find_longest_match.
Variables (a b : pystr) (b2j : gmap N (list nat)).
Variables (alo ahi blo bhi : nat).

(** Inner loop of [find_longest_match] for one [i]:
    [for j in b2j.get(a[i], nothing)].  [j2len.get(j-1, 0)] is 0 at
    [j = 0]; [i-k+1] is written [i + 1 - k] to stay in [nat]. *)
Fixpoint scan_row (i : nat) (j2len : gmap nat nat) (js : list nat)
    (newj2len : gmap nat nat) (best : Match) : gmap nat nat * Match :=
  match js with
  | [] => (newj2len, best)
  | j :: js' =>
    if bool_decide (j < blo) then scan_row i j2len js' newj2len best
    else if bool_decide (bhi ≤ j) then (newj2len, best)
    else
      let k := match j with
               | 0 => 0
               | S j' => default 0 (j2len !! j')
               end + 1 in
      let newj2len := <[j := k]> newj2len in
      if bool_decide (best.2 < k)
      then scan_row i j2len js' newj2len (i + 1 - k, j + 1 - k, k)
      else scan_row i j2len js' newj2len best
  end.

(** Outer loop, [for i in range(alo, ahi)], by the number [n] of rows left. *)
Fixpoint scan_rows (n i : nat) (j2len : gmap nat nat) (best : Match) : Match :=
  match n with
  | 0 => best
  | S n' =>
    let js := match a !! i with
              | Some x => default [] (b2j !! x)
              | None => []
              end in
    let '(newj2len, best') := scan_row i j2len js ∅ best in
    scan_rows n' (S i) newj2len best'
  end.

(** [while besti > alo and bestj > blo and a[besti-1] == b[bestj-1]]. *)
Fixpoint extend_left (besti bestj bestsize : nat) : Match :=
  match besti, bestj with
  | S i', S j' =>
    if bool_decide (alo < besti) && bool_decide (blo < bestj) && same a i' b j'
    then extend_left i' j' (S bestsize)
    else (besti, bestj, bestsize)
  | _, _ => (besti, bestj, bestsize)
  end.

(** [while besti+bestsize < ahi and bestj+bestsize < bhi and
     a[besti+bestsize] == b[bestj+bestsize]], by its variant
    [n = ahi - (besti + bestsize)]: at [n = 0] the guard is false. *)
Fixpoint extend_right (besti bestj : nat) (n bestsize : nat) : nat :=
  match n with
  | 0 => bestsize
  | S n' =>
    if bool_decide (besti + bestsize < ahi) && bool_decide (bestj + bestsize < bhi)
       && same a (besti + bestsize) b (bestj + bestsize)
    then extend_right besti bestj n' (S bestsize)
    else bestsize
  end.

(** The two further loops of the original only absorb junk elements and
    never run here, the junk set being empty. *)
Definition find_longest_match : Match :=
  let '(besti, bestj, bestsize) := scan_rows (ahi - alo) alo ∅ (alo, blo, 0) in
  let '(besti, bestj, bestsize) := extend_left besti bestj bestsize in
  let bestsize := extend_right besti bestj (ahi - (besti + bestsize)) bestsize in
  (besti, bestj, bestsize).
End find_longest_match.

(** The work list of [get_matching_blocks]; the head of the list is the end of
    the Python list, where [pop()] and [append()] operate.  Every round with a
    match removes at least one element of [a] from the ranges still to be
    looked at, so [2 * len(a) + 1] rounds always empty the queue
    ([blocks_loop_fuel] below). *)
Fixpoint blocks_loop (a b : pystr) (b2j : gmap N (list nat)) (fuel : nat)
    (queue : list (nat * nat * nat * nat)) (matching_blocks : list Match)
    : list Match :=
  match fuel with
  | 0 => matching_blocks
  | S fuel' =>
    match queue with
    | [] => matching_blocks
    | (alo, ahi, blo, bhi) :: queue =>
      let '(i, j, k) := find_longest_match a b b2j alo ahi blo bhi in
      if bool_decide (k ≠ 0) then
        let queue :=
          if bool_decide (alo < i) && bool_decide (blo < j)
          then (alo, i, blo, j) :: queue else queue in
        let queue :=
          if bool_decide (i + k < ahi) && bool_decide (j + k < bhi)
          then (i + k, ahi, j + k, bhi) :: queue else queue in
        blocks_loop a b b2j fuel' queue (matching_blocks ++ [(i, j, k)])
      else blocks_loop a b b2j fuel' queue matching_blocks
    end
  end.

(** Tuple order, for [matching_blocks.sort()]. *)
Definition Match_leb (x y : Match) : bool :=
  let '(i1, j1, k1) := x in
  let '(i2, j2, k2) := y in
  bool_decide (i1 < i2)
  || (bool_decide (i1 = i2)
      && (bool_decide (j1 < j2)
          || (bool_decide (j1 = j2) && bool_decide (k1 ≤ k2)))).

Fixpoint insert_block (x : Match) (l : list Match) : list Match :=
  match l with
  | [] => [x]
  | y :: l' => if Match_leb x y then x :: l else y :: insert_block x l'
  end.

Definition sort_blocks (l : list Match) : list Match :=
  foldr insert_block [] l.

(** The loop that merges adjacent blocks. *)
Fixpoint collapse (i1 j1 k1 : nat) (blocks : list Match)
    (non_adjacent : list Match) : list Match :=
  match blocks with
  | [] =>
    if bool_decide (k1 ≠ 0) then non_adjacent ++ [(i1, j1, k1)]
    else non_adjacent
  | (i2, j2, k2) :: blocks' =>
    if bool_decide (i1 + k1 = i2) && bool_decide (j1 + k1 = j2)
    then collapse i1 j1 (k1 + k2) blocks' non_adjacent
    else collapse i2 j2 k2 blocks'
           (if bool_decide (k1 ≠ 0) then non_adjacent ++ [(i1, j1, k1)]
            else non_adjacent)
  end.

Definition get_matching_blocks (a b : pystr) : list Match :=
  let la := length a in
  let lb := length b in
  let matching_blocks :=
    blocks_loop a b (chain_b b) (2 * la + 1) [(0, la, 0, lb)] [] in
  collapse 0 0 0 (sort_blocks matching_blocks) [] ++ [(la, lb, 0)].

(** [_calculate_ratio]: [2.0 * matches / length], and 1.0 for two empty
    sequences. *)
Definition calculate_ratio (matches length : nat) : Qc :=
  if bool_decide (length ≠ 0)
  then Q2Qc (Qmake (2 * Z.of_nat matches) (Pos.of_nat length))
  else 1%Qc.

Definition ratio (a b : pystr) : Qc :=
  let matches :=
    foldr (λ triple acc, triple.2 + acc) 0 (get_matching_blocks a b) in
  calculate_ratio matches (length a + length b).

End difflib.

(** ** The scorer *)

Definition similar (a b : pystr) : Qc := difflib.ratio a b.

(** The score as the resolver takes it:
    [similar(user_input.lower(), keyword.lower())]. *)
Definition score (user_input keyword : pystr) : Qc :=
  similar (lower user_input) (lower keyword).

(** ** The catalogue and the resolver *)

(** The dictionary literal [keywords] of [suggest_command], in insertion
    order, which is the order [keywords.items()] iterates in. *)
Definition keywords : list (pystr * list pystr) :=
  [ (py "додати контакт",
     [py "додати контакт"; py "створити контакт"; py "новий контакт";
      py "ввести контакт"; py "записати контакт"; py "добавити контакт";
      py "додати користувача"; py "добавити користувача";
      py "ввести користувача"; py "новий користувач"; py "ввезти контакт";
      py "введ контакт"; py "контакт новий"; py "корист новий";
      py "користувача новий"; py "контакт користувача";
      py "новий запис користувача"]);
    (py "знайти контакт",
     [py "знайти контакт"; py "пошук контакт"; py "шукати контакт";
      py "відшукати контакт"; py "знайти користувача";
      py "пошук користувача"; py "шукати користувача";
      py "відшукати користувача"; py "пошукати контакт";
      py "пошукати користувача"; py "пошук контактів";
      py "відшукати контакти"; py "пошук користувачів";
      py "відшукати користувачів"]);
    (py "видалити контакт",
     [py "видалити контакт"; py "знищити контакт"; py "стерти контакт";
      py "вилучити контакт"; py "видалити користувача";
      py "знищити користувача"; py "стерти користувача";
      py "вилучити користувача"; py "видалити запис"; py "стерти запис";
      py "видалення контакту"; py "стерти контакти"; py "видалення записів";
      py "стерти записи"; py "вилучити контакти"; py "знищити записи"]);
    (py "редагувати контакт",
     [py "редагувати контакт"; py "змінити контакт";
      py "редагування контакту"; py "редактировать контакт";
      py "змінити запис"; py "змінити ім'я"; py "змінити номер";
      py "змінити email"; py "змінити адресу"; py "редагувати номер";
      py "редагувати ім'я"; py "редагувати email"; py "редагувати адресу";
      py "редактирование контакта"]);
    (py "редагувати нотатку",
     [py "редагувати нотатку"; py "змінити нотатку";
      py "редагування нотатки"; py "редактировать нотатку";
      py "змінити текст"; py "змінити теги"; py "редагувати текст";
      py "редагувати теги"; py "редагування тексту"; py "редагування тегів";
      py "змінити запис нотатки"]);
    (py "дні народження",
     [py "дні народження"; py "показати дні народження";
      py "знайти дні народження"; py "пошук днів народження";
      py "найближчі дні народження"; py "наступні дні народження";
      py "вивести дні народження"; py "народження контакту";
      py "найближчі дати народження"; py "найближчі свята";
      py "дні народження контакту"; py "найближчі події";
      py "найближчі свята контакту"; py "наступні свята";
      py "вивести дні народження контакту"]);
    (py "додати нотатку",
     [py "додати нотатку"; py "створити нотатку"; py "нова нотатка";
      py "ввести нотатку"; py "записати нотатку"; py "добавити нотатку";
      py "новий запис"; py "ввести запис"; py "записати запис";
      py "новий текст"; py "створити запис нотатки";
      py "добавити новий запис"; py "новий текст нотатки"]);
    (py "знайти нотатку",
     [py "знайти нотатку"; py "пошук нотатки"; py "шукати нотатку";
      py "відшукати нотатку"; py "знайти запис"; py "пошук запису";
      py "шукати запис"; py "відшукати запис"; py "пошукати нотатку";
      py "пошукати запис"; py "знайти текст нотатки"; py "відшукати текст";
      py "пошук тексту"; py "пошук записів"; py "знайти записи нотаток"]);
    (py "видалити нотатку",
     [py "видалити нотатку"; py "знищити нотатку"; py "стерти нотатку";
      py "вилучити нотатку"; py "видалити запис"; py "знищити запис";
      py "стерти запис"; py "вилучити запис"; py "стерти текст";
      py "видалити текст"; py "видалити текст нотатки";
      py "стерти текст нотатки"; py "вилучити запис нотатки"]);
    (py "вийти",
     [py "вийти"; py "закрити"; py "завершити"; py "припинити"; py "вихід";
      py "закрити програму"; py "виходити"; py "exit"; py "close";
      py "завершення"; py "вихід з програми"; py "припинити роботу";
      py "завершити роботу"; py "вийти з програми"; py "закрити все"]);
    (py "відміна",
     [py "відміна"; py "отмена"; py "cancel"; py "відмінити"; py "зупинити";
      py "скасувати"; py "скасування"; py "зупинка"; py "перервати";
      py "скасувати операцію"; py "відмінити операцію"; py "скасування дії";
      py "відміна дії"; py "скасувати введення"; py "відмінити введення";
      py "зупинити введення"; py "перервати введення"]);
    (py "показати всі контакти",
     [py "показати всі контакти"; py "всі контакти";
      py "переглянути всі контакти"; py "переглянути контакти";
      py "відобразити всі контакти"; py "показати список контактів";
      py "вивести всі контакти"; py "вивести список контактів";
      py "показати контакти"; py "список контактів"])
  ].

Definition threshold : Qc := Q2Qc (3 # 10).

(** The body of the inner [for keyword in command_list] loop; the state is
    [(best_match, highest_similarity)]. *)
Definition try_keyword (user_input command : pystr)
    (st : option pystr * Qc) (keyword : pystr) : option pystr * Qc :=
  let similarity := score user_input keyword in
  if bool_decide (st.2 < similarity)%Qc && bool_decide (threshold ≤ similarity)%Qc
  then (Some command, similarity)
  else st.

(** The two nested loops over an arbitrary catalogue. *)
Definition suggest_in (keywords : list (pystr * list pystr))
    (user_input : pystr) : option pystr :=
  (fold_left
     (λ st entry, fold_left (try_keyword user_input entry.1) entry.2 st)
     keywords (None, 0%Qc)).1.

Definition suggest_command (user_input : pystr) : option pystr :=
  suggest_in keywords user_input.

(** The catalogue as the two loops walk it: every (command, keyword) pair, in
    order. *)
Definition enumeration (keywords : list (pystr * list pystr))
    : list (pystr * pystr) :=
  flat_map (λ entry, map (pair entry.1) entry.2) keywords.

(** The state of the two loops after the pairs [l], from state [st]. *)
Definition scan (user_input : pystr) (st : option pystr * Qc)
    (l : list (pystr * pystr)) : option pystr * Qc :=
  fold_left (λ st ck, try_keyword user_input ck.1 st ck.2) l st.

(** The keys of [keywords]. *)
Definition canonical_commands : list pystr :=
  [py "додати контакт"; py "знайти контакт"; py "видалити контакт";
   py "редагувати контакт"; py "редагувати нотатку"; py "дні народження";
   py "додати нотатку"; py "знайти нотатку"; py "видалити нотатку";
   py "вийти"; py "відміна"; py "показати всі контакти"].

Definition exit_command : pystr := py "вийти".
Definition cancel_command : pystr := py "відміна".

(** ** Console, exceptions *)

Inductive event : Type :=
  | Prompt (text : pystr)   (* written by [input(prompt)] *)
  | Printed (text : pystr).   (* written by [print(text)] *)

Inductive exception : Type :=
  | EOFError
  | ValueError (e : pystr).

Inductive result (A : Type) : Type :=
  | Returned (v : A)
  | Raised (exc : exception).
Arguments Returned {A} v.
Arguments Raised {A} exc.

(** A computation that uses the console: from the lines still to be read it
    gives its result, the lines left and the events it wrote, in order. *)
Definition console (A : Type) : Type :=
  list pystr → result A * list pystr * list event.

Definition ret {A} (v : A) : console A := λ stdin, (Returned v, stdin, []).

Definition bind {A B} (m : console A) (f : A → console B) : console B :=
  λ stdin,
    match m stdin with
    | (Returned v, stdin', out) =>
      let '(r, stdin'', out') := f v stdin' in (r, stdin'', out ++ out')
    | (Raised exc, stdin', out) => (Raised exc, stdin', out)
    end.

Definition print (text : pystr) : console unit :=
  λ stdin, (Returned (), stdin, [Printed text]).

Definition lift {A} (r : result A) : console A :=
  λ stdin, (r, stdin, []).

Notation "x ⇐ m ;; k" := (bind m (λ x, k))
  (at level 100, m at next level, right associativity, only parsing).

(** [input(prompt)]: the prompt is written and one line is read; [EOFError]
    when stdin has none left. *)
Definition input (prompt : pystr) : console pystr :=
  λ stdin,
    match stdin with
    | [] => (Raised EOFError, [], [Prompt prompt])
    | user_input :: stdin' => (Returned user_input, stdin', [Prompt prompt])
    end.

(** ** The decorator [handle_user_input] *)

(** Which [return] of [wrapper] was taken. *)
Inductive LoopOutcome : Type :=
  | Accepted (value : pystr)   (* [return func(user_input)] *)
  | Cancelled                  (* [return None] *)
  | Exited.                    (* [return 'exit'] *)

(** The Python value each [return] hands to the caller; [None] is Python's
    [None]. *)
Definition returned_value (o : LoopOutcome) : option pystr :=
  match o with
  | Accepted value => Some value
  | Cancelled => None
  | Exited => Some (py "exit")
  end.

Definition exit_message : pystr :=
  py "Вихід з поточної дії. Повертаємося в головне меню.".
Definition cancel_message : pystr :=
  py "Дію скасовано. Повертаємося в головне меню.".

(** [f"Помилка вводу: {e}. Будь ласка, спробуйте ще раз."] *)
Definition error_message (e : pystr) : pystr :=
  py "Помилка вводу: " ++ e ++ py ". Будь ласка, спробуйте ще раз.".

Section handle_user_input.
Context {F : Type}.
(** [validation_class], [None] when the decorator gets no class; the class
    builds a field object or raises. *)
Variable validation_class : option (pystr → result F).
Variable func : pystr → pystr.

(** [while True:] reads one line per round, so the loop is a recursion on
    the lines left on stdin; [input] raises [EOFError] when there is none. *)
Fixpoint wrapper (prompt : pystr) (stdin : list pystr)
    : result LoopOutcome * list pystr * list event :=
  match stdin with
  | [] => (Raised EOFError, [], [Prompt prompt])
  | user_input :: stdin' =>
    let command := suggest_command user_input in
    if bool_decide (command = Some exit_command) then
      (Returned Exited, stdin', [Prompt prompt; Printed exit_message])
    else if bool_decide (command = Some cancel_command) then
      (Returned Cancelled, stdin', [Prompt prompt; Printed cancel_message])
    else
      match validation_class with
      | Some validate =>
        match validate user_input with
        | Raised (ValueError e) =>
          let '(r, stdin'', out) := wrapper prompt stdin' in
          (r, stdin'', Prompt prompt :: Printed (error_message e) :: out)
        | Raised exc => (Raised exc, stdin', [Prompt prompt])
        | Returned _ =>
          (Returned (Accepted (func user_input)), stdin', [Prompt prompt])
        end
      | None => (Returned (Accepted (func user_input)), stdin', [Prompt prompt])
      end
  end.
End handle_user_input.

(** The test the branches of [main] make on a line read by a bare [input]:
    [suggest_command(x) == 'вийти' or suggest_command(x) == 'відміна'] *)
Definition exit_or_cancel (x : pystr) : bool :=
  bool_decide (suggest_command x = Some exit_command)
  || bool_decide (suggest_command x = Some cancel_command).

(** ** Field classes *)

Definition Name (value : pystr) : result pystr :=
  if bool_decide (length value < 2)
  then Raised (ValueError (py "Ім'я повинно містити мінімум 2 літери."))
  else Returned value.

Definition Address (value : pystr) : result pystr :=
  if bool_decide (length value < 5)
  then Raised (ValueError (py "Адреса повинна містити мінімум 5 символів."))
  else Returned value.

(** [re.match(r"[^@]+@[^@]+\.[^@]+", value)]: the text after the first run
    of [[^@]+] has been entered; some later "." must be followed by a
    character other than "@", with no "@" before it. *)
Fixpoint email_domain (r : pystr) : bool :=
  match r with
  | [] => false
  | c :: r' =>
    ((c =? 46)%N && match r' with
                    | d :: _ => negb (d =? 64)%N
                    | [] => false
                    end)
    || (negb (c =? 64)%N && email_domain r')
  end.

(** [seen]: at least one character before the "@" has been read. *)
Fixpoint email_match (seen : bool) (value : pystr) : bool :=
  match value with
  | [] => false
  | c :: r =>
    if (c =? 64)%N then
      seen && match r with
              | d :: r' => negb (d =? 64)%N && email_domain r'
              | [] => false
              end
    else email_match true r
  end.

Definition Email (value : pystr) : result pystr :=
  if negb (email_match false value)
  then Raised (ValueError (py "Некоректний формат email. " ++
                           py "Правильний формат: example@domain.com."))
  else Returned value.

Section assistant.
(** What the standard library decides: the decimal digits [\d] matches
    besides "0".."9" (the rest of Unicode category Nd), and
    [datetime.strptime(value, '%d-%m-%Y').date()], [None] when it raises
    [ValueError]. *)
Variable decimal_digit_other : N → bool.
Variable date : Type.
Variable strptime_dmY : pystr → option date.

Definition re_digit (c : N) : bool :=
  (48 <=? c)%N && (c <=? 57)%N || decimal_digit_other c.

(** [re.match(r"^\d{10}$", value)]; [$] also matches before a final
    newline. *)
Definition phone_match (value : pystr) : bool :=
  forallb re_digit (take 10 value)
  && bool_decide (length (take 10 value) = 10)
  && (bool_decide (drop 10 value = []) || bool_decide (drop 10 value = [10%N])).

Definition Phone (value : pystr) : result pystr :=
  if negb (phone_match value)
  then Raised (ValueError (py "Номер телефону має містити рівно 10 цифр."))
  else Returned value.

Definition Birthday (value : pystr) : result date :=
  match strptime_dmY value with
  | Some d => Returned d
  | None =>
    Raised (ValueError (py "День народження повинен бути в форматі дд-мм-рррр."))
  end.

(** The decorated functions; each body is [return user_input]. *)
Definition get_name := wrapper (Some Name) (λ user_input, user_input).
Definition get_phone := wrapper (Some Phone) (λ user_input, user_input).
Definition get_address := wrapper (Some Address) (λ user_input, user_input).
Definition get_email := wrapper (Some Email) (λ user_input, user_input).
Definition get_birthday := wrapper (Some Birthday) (λ user_input, user_input).

(** *** [class Record] and [class AddressBook] *)

Record RecordObj : Type := mkRecord {
  name : pystr;               (* [self.name.value] *)
  phones : list pystr;        (* the values of [self.phones] *)
  address : option pystr;
  email : option pystr;
  birthday : option date
}.

Definition map_result {A B} (f : A → B) (r : result A) : result B :=
  match r with
  | Returned v => Returned (f v)
  | Raised exc => Raised exc
  end.

(** [Record(name)] *)
Definition Record_init (name : pystr) : result RecordObj :=
  map_result (λ v, mkRecord v [] None None None) (Name name).

Definition add_phone (self : RecordObj) (phone : pystr) : result RecordObj :=
  map_result
    (λ v, mkRecord self.(name) (self.(phones) ++ [v]) self.(address)
            self.(email) self.(birthday))
    (Phone phone).

Definition add_address (self : RecordObj) (address : pystr) : result RecordObj :=
  map_result
    (λ v, mkRecord self.(name) self.(phones) (Some v) self.(email)
            self.(birthday))
    (Address address).

Definition add_email (self : RecordObj) (email : pystr) : result RecordObj :=
  map_result
    (λ v, mkRecord self.(name) self.(phones) self.(address) (Some v)
            self.(birthday))
    (Email email).

Definition add_birthday (self : RecordObj) (birthday : pystr) : result RecordObj :=
  map_result
    (λ v, mkRecord self.(name) self.(phones) self.(address) self.(email)
            (Some v))
    (Birthday birthday).

(** [self.data[record.name.value] = record] *)
Definition add_record (record : RecordObj) (book : gmap pystr RecordObj)
    : gmap pystr RecordObj :=
  <[record.(name) := record]> book.

(** *** [main], the branch [command == 'додати контакт'] *)

(** The value a decorated function hands back to [main]. *)
Definition call (guarded : console LoopOutcome) : console (option pystr) :=
  o ⇐ guarded ;; ret (returned_value o).

(** [if x in ['exit', None]: continue], else go on with the string [x]. *)
Definition unless_exit_or_None {A} (x : option pystr) (continue : A)
    (otherwise : pystr → A) : A :=
  match x with
  | None => continue
  | Some x => if bool_decide (x = py "exit") then continue else otherwise x
  end.

Definition prompt_name : pystr := py "Введіть ім'я: ".
Definition prompt_phone : pystr := py "Введіть номер телефону: ".
Definition prompt_address : pystr := py "Введіть адресу: ".
Definition prompt_email : pystr := py "Введіть email: ".
Definition prompt_birthday : pystr := py "Введіть день народження (дд-мм-рррр): ".

(** One pass through the branch: the address book at the next round of the
    main loop. *)
Definition add_contact (book : gmap pystr RecordObj)
    : console (gmap pystr RecordObj) :=
  name ⇐ call (get_name prompt_name) ;;
  unless_exit_or_None name (ret book) (λ name,
  phone ⇐ call (get_phone prompt_phone) ;;
  unless_exit_or_None phone (ret book) (λ phone,
  address ⇐ call (get_address prompt_address) ;;
  unless_exit_or_None address (ret book) (λ address,
  email ⇐ call (get_email prompt_email) ;;
  unless_exit_or_None email (ret book) (λ email,
  birthday ⇐ call (get_birthday prompt_birthday) ;;
  unless_exit_or_None birthday (ret book) (λ birthday,
  record ⇐ lift (Record_init name) ;;
  record ⇐ lift (add_phone record phone) ;;
  record ⇐ lift (add_address record address) ;;
  record ⇐ lift (add_email record email) ;;
  record ⇐ lift (add_birthday record birthday) ;;
  _ ⇐ print (py "Контакт " ++ name ++
             py " успішно додано до вашої адресної книги!") ;;
  ret (add_record record book)))))).

(** The guarded calls of the branch, in the order [main] makes them. *)
Definition add_contact_calls : list (console LoopOutcome) :=
  [get_name prompt_name; get_phone prompt_phone; get_address prompt_address;
   get_email prompt_email; get_birthday prompt_birthday].

(** Guarded calls made one after the other, up to and including the first
    that does not accept a value; the outcomes in order. *)
Fixpoint sequence_calls (calls : list (console LoopOutcome))
    : console (list LoopOutcome) :=
  match calls with
  | [] => ret []
  | c :: calls' =>
    o ⇐ c ;;
    match o with
    | Accepted _ => os ⇐ sequence_calls calls' ;; ret (o :: os)
    | _ => ret [o]
    end
  end.

(** *** [main], the branch [command == 'редагувати контакт'], choice "2" *)

(** The loop of [Record.edit_phone]: the phones with the first one equal to
    [old_phone] replaced by [Phone(new_phone)], or [None] when the method
    returns [False]. *)
Fixpoint replace_phone (phones : list pystr) (old_phone new_phone : pystr)
    : result (option (list pystr)) :=
  match phones with
  | [] => Returned None
  | phone :: phones' =>
    if bool_decide (phone = old_phone)
    then map_result (λ v, Some (v :: phones')) (Phone new_phone)
    else map_result (option_map (cons phone))
           (replace_phone phones' old_phone new_phone)
  end.

(** [record.edit_phone(old_phone, new_phone)]: the record afterwards and the
    value returned. *)
Definition edit_phone (self : RecordObj) (old_phone new_phone : pystr)
    : result (RecordObj * bool) :=
  map_result
    (λ r, match r with
          | Some phones' =>
            (mkRecord self.(name) phones' self.(address) self.(email)
               self.(birthday), true)
          | None => (self, false)
          end)
    (replace_phone self.(phones) old_phone new_phone).

Definition prompt_old_phone : pystr :=
  py "Введіть номер телефону, який потрібно замінити: ".
Definition prompt_new_phone : pystr := py "Введіть новий номер телефону: ".

(** [record] is the object the book holds under [key] ([book.find(key)]), so
    [edit_phone] changes the book at [key].  Both numbers are asked for before
    either answer is looked at. *)
Definition edit_contact_phone (book : gmap pystr RecordObj) (key : pystr)
    (record : RecordObj) : console (gmap pystr RecordObj) :=
  old_phone ⇐ call (get_phone prompt_old_phone) ;;
  new_phone ⇐ call (get_phone prompt_new_phone) ;;
  unless_exit_or_None old_phone (ret book) (λ old_phone,
  unless_exit_or_None new_phone (ret book) (λ new_phone,
  edited ⇐ lift (edit_phone record old_phone new_phone) ;;
  if edited.2 then
    _ ⇐ print (py "Номер телефону успішно змінено.") ;;
    ret (<[key := edited.1]> book)
  else
    _ ⇐ print (py "Старий номер телефону не знайдено.") ;;
    ret book)).

(** *** The other methods of [Record] and [AddressBook] that [main] uses *)

Definition edit_name (self : RecordObj) (new_name : pystr) : result RecordObj :=
  map_result
    (λ v, mkRecord v self.(phones) self.(address) self.(email)
            self.(birthday))
    (Name new_name).

Definition edit_email (self : RecordObj) (new_email : pystr) : result RecordObj :=
  map_result
    (λ v, mkRecord self.(name) self.(phones) self.(address) (Some v)
            self.(birthday))
    (Email new_email).

Definition edit_address (self : RecordObj) (new_address : pystr)
    : result RecordObj :=
  map_result
    (λ v, mkRecord self.(name) self.(phones) (Some v) self.(email)
            self.(birthday))
    (Address new_address).

Definition edit_birthday (self : RecordObj) (new_birthday : pystr)
    : result RecordObj :=
  map_result
    (λ v, mkRecord self.(name) self.(phones) self.(address) self.(email)
            (Some v))
    (Birthday new_birthday).

Definition AddressBook_find (book : gmap pystr RecordObj) (name : pystr)
    : option RecordObj :=
  book !! name.

(** [AddressBook.delete]: the book afterwards and the value returned. *)
Definition AddressBook_delete (book : gmap pystr RecordObj) (name : pystr)
    : gmap pystr RecordObj * bool :=
  if bool_decide (is_Some (book !! name))
  then (delete name book, true)
  else (book, false).

(** *** [main], the branch [command == 'видалити контакт'] *)

Definition delete_contact (book : gmap pystr RecordObj)
    : console (gmap pystr RecordObj) :=
  name ⇐ input (py "Введіть ім'я для видалення: ") ;;
  if exit_or_cancel name then
    _ ⇐ print (py "Видалення скасовано. Повертаємося до головного меню.") ;;
    ret book
  else
    let deleted := AddressBook_delete book name in
    if deleted.2 then
      _ ⇐ print (py "Контакт " ++ name ++ py " успішно видалено.") ;;
      ret deleted.1
    else
      _ ⇐ print (py "Не вдалося знайти контакт з таким ім'ям для видалення.") ;;
      ret deleted.1.

(** *** [main], the branch [command == 'редагувати контакт'] *)

(** [record] is the object the book holds under the name typed, so each
    [record.edit_...] changes the book at that key, whatever the record's
    own name becomes. *)
Definition edit_contact (book : gmap pystr RecordObj)
    : console (gmap pystr RecordObj) :=
  name ⇐ input (py "Введіть ім'я контакту, який потрібно редагувати: ") ;;
  match AddressBook_find book name with
  | None => _ ⇐ print (py "Контакт не знайдено.") ;; ret book
  | Some record =>
    _ ⇐ print (py "Оберіть поле для редагування:") ;;
    _ ⇐ print (py "1. Ім'я") ;;
    _ ⇐ print (py "2. Номер телефону") ;;
    _ ⇐ print (py "3. Email") ;;
    _ ⇐ print (py "4. Адреса") ;;
    _ ⇐ print (py "5. День народження") ;;
    field_choice ⇐ input (py "Введіть номер поля: ") ;;
    if bool_decide (field_choice = py "1") then
      new_name ⇐ call (get_name (py "Введіть нове ім'я: ")) ;;
      unless_exit_or_None new_name (ret book) (λ new_name,
        record ⇐ lift (edit_name record new_name) ;;
        _ ⇐ print (py "Ім'я успішно змінено.") ;;
        ret (<[name := record]> book))
    else if bool_decide (field_choice = py "2") then
      edit_contact_phone book name record
    else if bool_decide (field_choice = py "3") then
      new_email ⇐ call (get_email (py "Введіть новий email: ")) ;;
      unless_exit_or_None new_email (ret book) (λ new_email,
        record ⇐ lift (edit_email record new_email) ;;
        _ ⇐ print (py "Email успішно змінено.") ;;
        ret (<[name := record]> book))
    else if bool_decide (field_choice = py "4") then
      new_address ⇐ call (get_address (py "Введіть нову адресу: ")) ;;
      unless_exit_or_None new_address (ret book) (λ new_address,
        record ⇐ lift (edit_address record new_address) ;;
        _ ⇐ print (py "Адресу успішно змінено.") ;;
        ret (<[name := record]> book))
    else if bool_decide (field_choice = py "5") then
      new_birthday ⇐
        call (get_birthday (py "Введіть новий день народження (дд-мм-рррр): ")) ;;
      unless_exit_or_None new_birthday (ret book) (λ new_birthday,
        record ⇐ lift (edit_birthday record new_birthday) ;;
        _ ⇐ print (py "День народження успішно змінено.") ;;
        ret (<[name := record]> book))
    else
      _ ⇐ print (py "Невірний вибір. Спробуйте ще раз.") ;;
      ret book
  end.

(** *** What the dialogues keep true of the address book *)

(** A key is a name that [get_name] can accept; a record has a phone, an
    address, an e-mail and a birthday, and its fields pass their validation
    classes. *)
Definition contact_key (key : pystr) : Prop :=
  2 ≤ length key
  ∧ suggest_command key ≠ Some exit_command
  ∧ suggest_command key ≠ Some cancel_command.

Definition record_valid (record : RecordObj) : Prop :=
  Name record.(name) = Returned record.(name)
  ∧ record.(phones) ≠ []
  ∧ Forall (λ phone, Phone phone = Returned phone) record.(phones)
  ∧ (∃ v, record.(address) = Some v ∧ Address v = Returned v)
  ∧ (∃ v, record.(email) = Some v ∧ Email v = Returned v)
  ∧ is_Some record.(birthday).

Definition well_formed (book : gmap pystr RecordObj) : Prop :=
  map_Forall (λ key record, contact_key key ∧ record_valid record) book.

(** What the edit-contact branch returns once the contact is found: the book
    it was given, or that book with another record under the same key. *)
Definition edited (book : gmap pystr RecordObj) (key : pystr)
    (record : RecordObj) (book' : gmap pystr RecordObj) : Prop :=
  book' = book
  ∨ ∃ record', (record_valid record → record_valid record')
      ∧ book' = <[key := record']> book.

End assistant.

(** ** [str.split] and [str.join] *)

(** [s.split(sep)] for a separator of one character. *)
Fixpoint str_split (sep : N) (s : pystr) : list pystr :=
  match s with
  | [] => [[]]
  | c :: s' =>
    if (c =? sep)%N then [] :: str_split sep s'
    else match str_split sep s' with
         | piece :: pieces => (c :: piece) :: pieces
         | [] => [[c]]
         end
  end.

(** [sep.join(pieces)] *)
Fixpoint str_join (sep : pystr) (pieces : list pystr) : pystr :=
  match pieces with
  | [] => []
  | [piece] => piece
  | piece :: pieces' => piece ++ sep ++ str_join sep pieces'
  end.

Definition comma : N := 44.

(** ** [class Note] and [class NoteBook] *)

Record NoteObj : Type := mkNote {
  text : pystr;
  tags : list pystr
}.

(** [Note(text, tags)]: [self.tags = tags if tags else []]; an absent
    argument is [None]. *)
Definition Note_init (text : pystr) (tags : option (list pystr)) : NoteObj :=
  mkNote text match tags with
              | Some (tag :: tags') => tag :: tags'
              | _ => []
              end.

Definition add_tag (self : NoteObj) (tag : pystr) : NoteObj :=
  if bool_decide (tag ∉ self.(tags))
  then mkNote self.(text) (self.(tags) ++ [tag])
  else self.

(** [list.remove(x)]: the first element equal to [x] is taken out. *)
Fixpoint list_remove (x : pystr) (l : list pystr) : list pystr :=
  match l with
  | [] => []
  | y :: l' => if bool_decide (y = x) then l' else y :: list_remove x l'
  end.

Definition remove_tag (self : NoteObj) (tag : pystr) : NoteObj :=
  if bool_decide (tag ∈ self.(tags))
  then mkNote self.(text) (list_remove tag self.(tags))
  else self.

Definition edit_text (self : NoteObj) (new_text : pystr) : NoteObj :=
  mkNote new_text self.(tags).

Definition edit_tags (self : NoteObj) (new_tags : list pystr) : NoteObj :=
  mkNote self.(text) new_tags.

(** [self.data[note.text] = note] *)
Definition NoteBook_add_note (note : NoteObj) (notebook : gmap pystr NoteObj)
    : gmap pystr NoteObj :=
  <[note.(text) := note]> notebook.

(** [NoteBook.delete]: the notebook afterwards and the value returned. *)
Definition NoteBook_delete (notebook : gmap pystr NoteObj) (text : pystr)
    : gmap pystr NoteObj * bool :=
  if bool_decide (is_Some (notebook !! text))
  then (delete text notebook, true)
  else (notebook, false).

Definition NoteBook_find (notebook : gmap pystr NoteObj) (text : pystr)
    : option NoteObj :=
  notebook !! text.

(** ** [main], the branches on notes *)

(** The branch [command == 'додати нотатку']: the notebook at the next round
    of the main loop. *)
Definition add_note (notebook : gmap pystr NoteObj)
    : console (gmap pystr NoteObj) :=
  text ⇐ input (py "Введіть текст нотатки: ") ;;
  if exit_or_cancel text then
    _ ⇐ print (py "Додавання нотатки скасовано. Повертаємося до головного меню.") ;;
    ret notebook
  else
    line ⇐ input (py "Введіть теги через кому: ") ;;
    let tags := str_split comma line in
    if exit_or_cancel (str_join [comma] tags) then
      _ ⇐ print (py "Додавання тегів скасовано. Повертаємося до головного меню.") ;;
      ret notebook
    else
      let note := Note_init text (Some tags) in
      _ ⇐ print (py "Нотатку успішно додано!") ;;
      ret (NoteBook_add_note note notebook).

(** The branch [command == 'редагувати нотатку'].  [note] is the object the
    notebook holds under [text], so [note.edit_text] and [note.edit_tags]
    change the notebook at [text]; [new_tags], a list, is never in
    [['exit', None]]. *)
Definition edit_note (notebook : gmap pystr NoteObj)
    : console (gmap pystr NoteObj) :=
  text ⇐ input (py "Введіть текст нотатки, яку потрібно редагувати: ") ;;
  match NoteBook_find notebook text with
  | None => _ ⇐ print (py "Нотатку не знайдено.") ;; ret notebook
  | Some note =>
    _ ⇐ print (py "Оберіть поле для редагування:") ;;
    _ ⇐ print (py "1. Текст нотатки") ;;
    _ ⇐ print (py "2. Теги") ;;
    field_choice ⇐ input (py "Введіть номер поля: ") ;;
    if bool_decide (field_choice = py "1") then
      new_text ⇐ input (py "Введіть новий текст нотатки: ") ;;
      if bool_decide (new_text = py "exit") then ret notebook
      else
        let note := edit_text note new_text in
        let notebook := <[text := note]> notebook in
        let notebook := NoteBook_add_note note notebook in
        let notebook := (NoteBook_delete notebook text).1 in
        _ ⇐ print (py "Текст нотатки успішно змінено.") ;;
        ret notebook
    else if bool_decide (field_choice = py "2") then
      line ⇐ input (py "Введіть нові теги через кому: ") ;;
      let new_tags := str_split comma line in
      let note := edit_tags note new_tags in
      _ ⇐ print (py "Теги успішно змінено.") ;;
      ret (<[text := note]> notebook)
    else
      _ ⇐ print (py "Невірний вибір. Спробуйте ще раз.") ;;
      ret notebook
  end.

(** The branch [command == 'видалити нотатку']. *)
Definition delete_note (notebook : gmap pystr NoteObj)
    : console (gmap pystr NoteObj) :=
  text ⇐ input (py "Введіть текст нотатки для видалення: ") ;;
  if exit_or_cancel text then
    _ ⇐ print (py "Видалення нотатки скасовано. Повертаємося до головного меню.") ;;
    ret notebook
  else
    let deleted := NoteBook_delete notebook text in
    if deleted.2 then
      _ ⇐ print (py "Нотатку успішно видалено.") ;;
      ret deleted.1
    else
      _ ⇐ print (py "Не вдалося знайти нотатку для видалення.") ;;
      ret deleted.1.

(** Every note is filed under its own text. *)
Definition keyed_by_text (notebook : gmap pystr NoteObj) : Prop :=
  map_Forall (λ key note, note.(text) = key) notebook.

(** ** [main], the choice of the branch *)

(** The branches of the [if]/[elif] chain of the main loop, in the order of
    the source: [Unrecognised] is [if not command], [Unknown] the final
    [else]. *)
Inductive Branch : Type :=
  | Unrecognised | AddContact | FindContact | DeleteContact | EditContact
  | EditNote | Birthdays | AddNote | FindNote | DeleteNote | ShowAllContacts
  | Quit | Unknown.

(** [command] is what [suggest_command] returned; [not command] holds of
    [None] and of the empty string. *)
Definition dispatch (command : option pystr) : Branch :=
  match command with
  | None => Unrecognised
  | Some command =>
    if bool_decide (command = []) then Unrecognised
    else if bool_decide (command = py "додати контакт") then AddContact
    else if bool_decide (command = py "знайти контакт") then FindContact
    else if bool_decide (command = py "видалити контакт") then DeleteContact
    else if bool_decide (command = py "редагувати контакт") then EditContact
    else if bool_decide (command = py "редагувати нотатку") then EditNote
    else if bool_decide (command = py "дні народження") then Birthdays
    else if bool_decide (command = py "додати нотатку") then AddNote
    else if bool_decide (command = py "знайти нотатку") then FindNote
    else if bool_decide (command = py "видалити нотатку") then DeleteNote
    else if bool_decide (command = py "показати всі контакти")
    then ShowAllContacts
    else if bool_decide (command = py "вийти") then Quit
    else Unknown
  end.

(** ** Notions the proofs about [difflib] are stated with *)

(** The indices of [x] in [b], counted from [i]. *)
Fixpoint positions (x : N) (b : pystr) (i : nat) : list nat :=
  match b with
  | [] => []
  | y :: b' =>
    if bool_decide (y = x) then i :: positions x b' (S i)
    else positions x b' (S i)
  end.

(** The length the inner loop records at [j]: [j2len.get(j-1, 0) + 1]. *)
Definition kval (j2len : gmap nat nat) (j : nat) : nat :=
  match j with
  | 0 => 0
  | S j' => default 0 (j2len !! j')
  end + 1.

(** [newj2len] after the inner loop has recorded a length at each of [js]. *)
Definition fill (j2len : gmap nat nat) (newj2len : gmap nat nat) (js : list nat)
    : gmap nat nat :=
  foldl (λ m j, <[j := kval j2len j]> m) newj2len js.

(** The number of consecutive elements that are in [b2j], up to index [t]
    (excluded), [b2j] being that of [x] itself. *)
Fixpoint run (x : pystr) (t : nat) : nat :=
  match t with
  | 0 => 0
  | S t' =>
    match x !! t' with
    | Some c =>
      if decide (is_Some (difflib.chain_b x !! c)) then S (run x t') else 0
    | None => 0
    end
  end.

(** What holds after the rows below [i] when [x] is matched against itself:
    the best match lies on the diagonal, and no recorded length exceeds the run
    of admitted elements on the diagonal. *)
Definition diagonal (x : pystr) (i : nat) (j2len : gmap nat nat)
    (best : difflib.Match) : Prop :=
  best.1.1 = best.1.2
  ∧ best.1.1 + best.2 ≤ i
  ∧ (∀ j k, j2len !! j = Some k → k ≤ run x (S j) ∧ k ≤ run x i)
  ∧ (∀ t, t ≤ i → run x t ≤ best.2)
  ∧ (∀ i', i = S i' → default 0 (j2len !! i') = run x i).

(** The recorded lengths and the best match stay within the two ranges. *)
Definition row_entries (alo blo : nat) (i : nat) (j2len : gmap nat nat)
    : Prop :=
  ∀ j k, j2len !! j = Some k → blo ≤ j ∧ k + alo ≤ i ∧ k + blo ≤ j + 1.

Definition in_range (alo blo bhi : nat) (i : nat) (best : difflib.Match)
    : Prop :=
  alo ≤ best.1.1 ∧ best.1.1 + best.2 ≤ i
  ∧ blo ≤ best.1.2 ∧ best.1.2 + best.2 ≤ bhi.

(** Every range of the work list is well formed; the rounds it can still
    take. *)
Definition queue_ok (queue : list (nat * nat * nat * nat)) : Prop :=
  Forall (λ '(alo, ahi, blo, bhi), alo ≤ ahi ∧ blo ≤ bhi) queue.

Definition queue_weight (queue : list (nat * nat * nat * nat)) : nat :=
  foldr (λ '(alo, ahi, _, _) w, 2 * (ahi - alo) + 1 + w) 0 queue.

(** The elements matched by a list of blocks: the sum of their sizes. *)
Definition matched (blocks : list difflib.Match) : nat :=
  foldr (λ triple acc, triple.2 + acc) 0 blocks.

(** The elements of [a], and of [b], in the ranges of the work list. *)
Definition span_a (queue : list (nat * nat * nat * nat)) : nat :=
  foldr (λ '(alo, ahi, _, _) w, (ahi - alo) + w) 0 queue.

Definition span_b (queue : list (nat * nat * nat * nat)) : nat :=
  foldr (λ '(_, _, blo, bhi) w, (bhi - blo) + w) 0 queue.

(** What a computation can return, and that it raises nothing but the
    [EOFError] of an [input] that finds stdin exhausted. *)
Definition returns {A} (m : console A) (P : A → Prop) : Prop :=
  ∀ stdin v stdin' out, m stdin = (Returned v, stdin', out) → P v.

Definition raises_only_EOFError {A} (m : console A) : Prop :=
  ∀ stdin exc stdin' out,
    m stdin = (Raised exc, stdin', out) → exc = EOFError ∧ stdin' = [].

(** A validation class of the program raises [ValueError] and nothing else. *)
Definition validating {F} (validate : pystr → result F) : Prop :=
  ∀ value exc, validate value = Raised exc → ∃ e, exc = ValueError e.

(** The value [main] gets from a decorated function: [None], ['exit'], or a
    line that the validation class takes and that is no control command. *)
Definition accepted_value {F} (validate : pystr → result F)
    (x : option pystr) : Prop :=
  match x with
  | None => True
  | Some value =>
    value = py "exit"
    ∨ (value ≠ py "exit" ∧ (∃ v, validate value = Returned v)
       ∧ suggest_command value ≠ Some exit_command
       ∧ suggest_command value ≠ Some cancel_command)
  end.

(** * Properties *)

(** A decidable statement, settled by evaluating its decision procedure. *)
Ltac by_evaluation :=
  match goal with
  | |- ?P => apply (bool_decide_unpack P); vm_compute; exact I
  end.

(** ** [difflib] *)

Import difflib.

(** *** What [__chain_b] builds *)

(** [b2j] maps an element to the ascending list of its indices, and holds no
    element that does not occur. *)
Lemma index_elements_lookup b i m x :
  index_elements i b m !! x
  = match positions x b i with
    | [] => m !! x
    | js => Some (default [] (m !! x) ++ js)
    end.
Proof.
  revert i m. induction b as [|y b IH]; intros i m; [done|].
  cbn. rewrite IH. case_bool_decide as Hy.
  - subst y. rewrite lookup_insert_eq. cbn.
    destruct (positions x b (S i)); cbn; by rewrite <- ?app_assoc.
  - by rewrite lookup_insert_ne.
Qed.


Lemma chain_b_lookup b x js :
  chain_b b !! x = Some js → js = positions x b 0 ∧ js ≠ [].
Proof.
  assert (Hraw : index_elements 0 b ∅ !! x = Some js →
                 js = positions x b 0 ∧ js ≠ []).
  { rewrite index_elements_lookup, lookup_empty.
    destruct (positions x b 0); [done|]. by intros [= <-]. }
  unfold chain_b. case_bool_decide as Hlen; [|exact Hraw].
  intros [H _]%map_lookup_filter_Some. by apply Hraw.
Qed.


(** *** Two sequences without a common element *)

(** No row finds a match and neither extension loop moves, so the only block
    is the closing [(la, lb, 0)]. *)
Section no_common_element.
Variables (a b : pystr).
Hypothesis disjoint : ∀ x, x ∈ a → x ∉ b.







End no_common_element.


(** *** A sequence against itself *)

(** Elements that are "popular" are missing from [b2j], so the rows may find
    only part of the diagonal, or nothing; whatever they find lies on the
    diagonal, and the extension loops, which compare elements directly, grow
    it to the whole sequence. *)
Lemma fill_lookup j2len newj2len js j :
  fill j2len newj2len js !! j
  = if decide (j ∈ js) then Some (kval j2len j) else newj2len !! j.
Proof.
  revert newj2len. induction js as [|j0 js IH]; intros newj2len.
  - cbn. case_decide as H; [by apply elem_of_nil in H | done].
  - cbn. unfold fill in IH. rewrite IH.
    destruct (decide (j = j0)) as [->|Hne].
    + rewrite lookup_insert_eq. rewrite (decide_True (P := j0 ∈ j0 :: js)) by left.
      by case_decide.
    + rewrite lookup_insert_ne by done.
      case_decide as Hin.
      * by rewrite decide_True by (by right).
      * rewrite decide_False; [done|]. by intros [?|?]%elem_of_cons.
Qed.

Lemma scan_row_kept blo bhi i j2len js rest newj2len best :
  Forall (λ j, blo ≤ j < bhi ∧ kval j2len j ≤ best.2) js →
  scan_row blo bhi i j2len (js ++ rest) newj2len best
  = scan_row blo bhi i j2len rest (fill j2len newj2len js) best.
Proof.
  intros H. revert newj2len.
  induction H as [|j js (Hj & Hk) _ IH]; intros newj2len; [done|].
  cbn [app scan_row].
  rewrite (bool_decide_eq_false_2 (j < blo)) by lia.
  rewrite (bool_decide_eq_false_2 (bhi ≤ j)) by lia.
  fold (kval j2len j).
  rewrite (bool_decide_eq_false_2 (best.2 < kval j2len j)) by lia.
  apply IH.
Qed.

Lemma positions_app c x1 x2 o :
  positions c (x1 ++ x2) o = positions c x1 o ++ positions c x2 (o + length x1).
Proof.
  revert o. induction x1 as [|y x1 IH]; intros o.
  - cbn. by rewrite Nat.add_0_r.
  - cbn. rewrite IH. replace (S o + length x1) with (o + S (length x1)) by lia.
    by case_bool_decide.
Qed.

Lemma positions_elem c x o j :
  j ∈ positions c x o → o ≤ j < o + length x ∧ x !! (j - o) = Some c.
Proof.
  revert o. induction x as [|y x IH]; intros o; [by intros ?%elem_of_nil|].
  cbn. intros H.
  assert (Hrest : j ∈ positions c x (S o) →
                  o ≤ j < o + S (length x) ∧ (y :: x) !! (j - o) = Some c).
  { intros [Hj Hx]%IH. split; [lia|].
    replace (j - o) with (S (j - S o)) by lia. done. }
  case_bool_decide as Hy; [|by apply Hrest].
  apply elem_of_cons in H as [->|H]; [|by apply Hrest].
  split; [lia|]. rewrite Nat.sub_diag. cbn. by subst.
Qed.

Lemma positions_split c x i :
  x !! i = Some c →
  ∃ js1 js2, positions c x 0 = js1 ++ i :: js2
    ∧ Forall (λ j, j < i) js1
    ∧ Forall (λ j, i < j) js2.
Proof.
  intros Hi. exists (positions c (take i x) 0), (positions c (drop (S i) x) (S i)).
  pose proof (lookup_lt_Some _ _ _ Hi) as Hlt.
  split; [|split].
  - rewrite <- (take_drop_middle x i c Hi) at 1.
    rewrite positions_app. cbn. rewrite bool_decide_eq_true_2 by done.
    rewrite length_take, Nat.min_l by lia. done.
  - apply Forall_forall. intros j [Hj _]%positions_elem.
    rewrite length_take in Hj. lia.
  - apply Forall_forall. intros j [Hj _]%positions_elem. lia.
Qed.

Section against_itself.
Variable x : pystr.
Local Abbreviation b2j := (chain_b x).
Local Abbreviation n := (length x).


Lemma run_le t : run x t ≤ t.
Proof.
  induction t as [|t IH]; [done|]. cbn.
  destruct (x !! t); [|lia]. case_decide; lia.
Qed.

Lemma run_S t c :
  x !! t = Some c → is_Some (b2j !! c) → run x (S t) = S (run x t).
Proof. intros Hc Hin. cbn. rewrite Hc. by rewrite decide_True. Qed.


Lemma kval_run i j2len best j c :
  diagonal x i j2len best →
  x !! i = Some c → x !! j = Some c → is_Some (b2j !! c) →
  kval j2len j ≤ run x (S j) ∧ kval j2len j ≤ run x (S i).
Proof.
  intros (_ & _ & Hentries & _ & _) Hi Hj Hc.
  rewrite (run_S i c), (run_S j c) by done.
  unfold kval. destruct j as [|j']; [lia|].
  destruct (j2len !! j') as [k|] eqn:Hk; cbn -[run]; [|lia].
  apply Hentries in Hk as [H1 H2]. lia.
Qed.

Lemma kval_diagonal i j2len best c :
  diagonal x i j2len best →
  x !! i = Some c → is_Some (b2j !! c) →
  kval j2len i = run x (S i).
Proof.
  intros (_ & _ & _ & _ & Hdiag) Hi Hc.
  rewrite (run_S i c) by done.
  unfold kval. destruct i as [|i']; [done|].
  rewrite (Hdiag i' eq_refl). lia.
Qed.

Lemma scan_row_diagonal i j2len best c :
  diagonal x i j2len best →
  x !! i = Some c →
  ∃ newj2len best',
    scan_row 0 n i j2len (default [] (b2j !! c)) ∅ best = (newj2len, best')
    ∧ diagonal x (S i) newj2len best'.
Proof.
  intros Hinv Hi.
  destruct (b2j !! c) as [js|] eqn:Hjs; cbn [from_option]; unfold id.
  - (* [c] is in [b2j] *)
    assert (Hc : is_Some (b2j !! c)) by (by rewrite Hjs).
    apply chain_b_lookup in Hjs as [-> _].
    destruct (positions_split c x i Hi) as (js1 & js2 & Hsplit & Hjs1 & Hjs2).
    assert (Hall : ∀ j, j ∈ js1 ++ i :: js2 → j < n ∧ x !! j = Some c).
    { intros j Hj. rewrite <- Hsplit in Hj.
      apply positions_elem in Hj as [Hj Hx].
      rewrite Nat.sub_0_r in Hx. split; [lia | done]. }
    pose proof Hinv as (Hsame & Hbound & Hentries & Hruns & Hdiag).
    rewrite Hsplit.
    rewrite scan_row_kept.
    2:{ apply Forall_forall. intros j Hj.
        destruct (Hall j) as [Hjn Hjx]; [apply elem_of_app; by left|].
        split; [lia|].
        destruct (kval_run i j2len best j c Hinv Hi Hjx Hc) as [Hk _].
        rewrite Forall_forall in Hjs1. specialize (Hjs1 j Hj).
        specialize (Hruns (S j)). lia. }
    destruct (Hall i) as [Hin _]; [apply elem_of_app; right; left|].
    cbn [scan_row].
    rewrite (bool_decide_eq_false_2 (i < 0)) by lia.
    rewrite (bool_decide_eq_false_2 (n ≤ i)) by lia.
    fold (kval j2len i).
    pose proof (kval_diagonal i j2len best c Hinv Hi Hc) as Hki.
    pose proof (run_le (S i)) as Hle.
    set (best' := if bool_decide (best.2 < kval j2len i)
                  then (i + 1 - kval j2len i, i + 1 - kval j2len i, kval j2len i)
                  else best).
    assert (Hbest' : best'.1.1 = best'.1.2 ∧ best'.1.1 + best'.2 ≤ S i
                     ∧ best.2 ≤ best'.2 ∧ run x (S i) ≤ best'.2).
    { unfold best'. case_bool_decide; cbn -[run]; lia. }
    destruct Hbest' as (Hsame' & Hbound' & Hmono & Hrun').
    replace (if bool_decide (best.2 < kval j2len i)
             then scan_row 0 n i j2len js2
                    (<[i:=kval j2len i]> (fill j2len ∅ js1))
                    (i + 1 - kval j2len i, i + 1 - kval j2len i, kval j2len i)
             else scan_row 0 n i j2len js2
                    (<[i:=kval j2len i]> (fill j2len ∅ js1)) best)
      with (scan_row 0 n i j2len (js2 ++ [])
              (fill j2len ∅ (js1 ++ [i])) best').
    2:{ rewrite app_nil_r. unfold best', fill. rewrite foldl_app. cbn.
        by case_bool_decide. }
    rewrite scan_row_kept.
    2:{ apply Forall_forall. intros j Hj.
        destruct (Hall j) as [Hjn Hjx]; [apply elem_of_app; right; by right|].
        split; [lia|].
        destruct (kval_run i j2len best j c Hinv Hi Hjx Hc) as [_ Hk]. lia. }
    cbn [scan_row]. eexists _, _. split; [reflexivity|].
    unfold fill. rewrite <- foldl_app. fold (fill j2len ∅ ((js1 ++ [i]) ++ js2)).
    rewrite <- app_assoc. cbn [app].
    split; [done|]. split; [done|]. split; [|split].
    + intros j k. rewrite fill_lookup.
      case_decide as Hj; [|by rewrite lookup_empty].
      intros [= <-]. destruct (Hall j Hj) as [_ Hjx].
      eapply kval_run; eauto.
    + intros t Ht. destruct (decide (t = S i)) as [->|]; [done|].
      specialize (Hruns t). lia.
    + intros i' [= <-]. rewrite fill_lookup.
      rewrite decide_True by (apply elem_of_app; right; left). done.
  - (* [c] is popular *)
    cbn [scan_row]. eexists _, _. split; [reflexivity|].
    destruct Hinv as (Hsame & Hbound & Hentries & Hruns & Hdiag).
    assert (Hrun : run x (S i) = 0).
    { cbn. rewrite Hi. rewrite decide_False; [done|].
      rewrite Hjs. by intros [? ?]. }
    split; [done|]. split; [lia|]. split; [|split].
    + intros j k. by rewrite lookup_empty.
    + intros t Ht. destruct (decide (t = S i)) as [->|]; [lia|].
      apply Hruns. lia.
    + intros i' [= <-]. by rewrite lookup_empty, Hrun.
Qed.

Lemma scan_rows_diagonal m i j2len best :
  i + m = n →
  diagonal x i j2len best →
  ∃ besti bestsize,
    scan_rows x b2j 0 n m i j2len best = (besti, besti, bestsize)
    ∧ besti + bestsize ≤ n.
Proof.
  revert i j2len best. induction m as [|m IH]; intros i j2len best Hm Hinv.
  - destruct best as [[besti bestj] bestsize].
    destruct Hinv as (Hsame & Hbound & _). cbn in *. subst bestj.
    exists besti, bestsize. split; [done|lia].
  - cbn [scan_rows].
    destruct (x !! i) as [c|] eqn:Hi.
    2:{ apply lookup_ge_None in Hi. lia. }
    destruct (scan_row_diagonal i j2len best c Hinv Hi)
      as (newj2len & best' & -> & Hinv').
    apply IH; [lia | done].
Qed.

End against_itself.

Lemma same_refl (x : pystr) i : i < length x → same x i x i = true.
Proof.
  intros Hi. unfold same. destruct (lookup_lt_is_Some_2 x i Hi) as [c ->].
  by apply bool_decide_eq_true_2.
Qed.

Lemma extend_left_diagonal (x : pystr) d size :
  d ≤ length x → extend_left x x 0 0 d d size = (0, 0, size + d).
Proof.
  revert size. induction d as [|d IH]; intros size Hd.
  - cbn. by rewrite Nat.add_0_r.
  - cbn [extend_left].
    rewrite (bool_decide_eq_true_2 (0 < S d)) by lia.
    rewrite same_refl by lia. cbn [andb].
    rewrite IH by lia. f_equal. lia.
Qed.

Lemma extend_right_diagonal (x : pystr) fuel size :
  size + fuel = length x →
  extend_right x x (length x) (length x) 0 0 fuel size = length x.
Proof.
  revert size. induction fuel as [|fuel IH]; intros size Hsize.
  - cbn. lia.
  - cbn [extend_right]. cbn [Nat.add].
    rewrite (bool_decide_eq_true_2 (size < length x)) by lia.
    rewrite same_refl by lia. cbn [andb].
    apply IH. lia.
Qed.

Lemma find_longest_match_itself (x : pystr) :
  find_longest_match x x (chain_b x) 0 (length x) 0 (length x)
  = (0, 0, length x).
Proof.
  unfold find_longest_match. rewrite Nat.sub_0_r.
  destruct (scan_rows_diagonal x (length x) 0 ∅ (0, 0, 0))
    as (besti & bestsize & -> & Hbound); [done| |].
  { split; [done|]. split; [done|]. split; [|split].
    - intros j k. by rewrite lookup_empty.
    - intros t Ht. by replace t with 0 by lia.
    - done. }
  rewrite extend_left_diagonal by lia.
  rewrite extend_right_diagonal; [done|]. cbn. lia.
Qed.

Lemma ratio_itself (x : pystr) : ratio x x = 1%Qc.
Proof.
  destruct x as [|c x]; [reflexivity|].
  set (y := c :: x).
  assert (Hlen : length y = S (length x)) by done.
  unfold ratio, get_matching_blocks.
  replace (2 * length y + 1) with (S (S (2 * length x + 1))) by lia.
  cbn [blocks_loop]. rewrite find_longest_match_itself.
  rewrite (bool_decide_eq_true_2 (length y ≠ 0)) by lia.
  rewrite (bool_decide_eq_false_2 (0 < 0)) by lia.
  rewrite (bool_decide_eq_false_2 (0 + length y < length y)) by lia.
  cbn [andb app sort_blocks foldr insert_block collapse].
  rewrite (bool_decide_eq_true_2 (0 + 0 = 0)) by lia.
  rewrite (bool_decide_eq_true_2 (0 + length y ≠ 0)) by lia.
  cbn [andb app foldr snd]. unfold calculate_ratio.
  rewrite (bool_decide_eq_true_2 (length y + length y ≠ 0)) by lia.
  change 1%Qc with (Q2Qc 1). apply Q2Qc_eq_iff.
  unfold Qeq. cbn [Qnum Qden].
  replace (length y + length y) with (S (length x + length y)) by lia.
  rewrite <- Pos.of_nat_succ, Zpos_P_of_succ_nat. lia.
Qed.

Lemma similar_itself (x : pystr) : similar x x = 1%Qc.
Proof. apply ratio_itself. Qed.

(** *** The work list empties within the fuel *)

(** [find_longest_match] answers within the ranges it is given, so every round
    of [get_matching_blocks] that finds a match shrinks what is left to look
    at: from [2 * len(a) + 1] rounds on, more rounds change nothing. *)

Section ranges.
Variables (a b : pystr) (b2j : gmap N (list nat)).
Variables (alo ahi blo bhi : nat).
Hypothesis (Hb : blo ≤ bhi).

Lemma scan_row_in_range i j2len js newj2len best :
  alo ≤ i →
  row_entries alo blo i j2len → row_entries alo blo (S i) newj2len →
  in_range alo blo bhi (S i) best →
  row_entries alo blo (S i) (scan_row blo bhi i j2len js newj2len best).1
  ∧ in_range alo blo bhi (S i) (scan_row blo bhi i j2len js newj2len best).2.
Proof.
  intros Hi Hprev. revert newj2len best.
  induction js as [|j js IH]; intros newj2len best Hnew Hbest; [done|].
  - cbn [scan_row].
    case_bool_decide as Hlo; [by apply IH|].
    case_bool_decide as Hhi; [done|].
    set (k := match j with 0 => 0 | S j' => default 0 (j2len !! j') end + 1).
    assert (Hk : k + alo ≤ S i ∧ k + blo ≤ j + 1).
    { unfold k. destruct j as [|j']; [lia|].
      destruct (j2len !! j') as [k'|] eqn:Hk'; cbn; [|lia].
      apply Hprev in Hk'. lia. }
    assert (Hnew' : row_entries alo blo (S i) (<[j:=k]> newj2len)).
    { intros j0 k0. destruct (decide (j = j0)) as [<-|Hne].
      - rewrite lookup_insert_eq. intros [= <-]. lia.
      - rewrite lookup_insert_ne by done. apply Hnew. }
    case_bool_decide as Hbetter; apply IH; try done.
    unfold in_range. cbn. lia.
Qed.

Lemma scan_rows_in_range n i j2len best :
  alo ≤ i →
  row_entries alo blo i j2len → in_range alo blo bhi i best →
  in_range alo blo bhi (i + n) (scan_rows a b2j blo bhi n i j2len best).
Proof.
  revert i j2len best. induction n as [|n IH]; intros i j2len best Hi Hrow Hbest.
  - cbn. by rewrite Nat.add_0_r.
  - cbn [scan_rows].
    set (js := match a !! i with Some x => default [] (b2j !! x) | None => [] end).
    destruct (scan_row_in_range i j2len js ∅ best) as [Hrow' Hbest'];
      [done | done | by intros j k; rewrite lookup_empty
      | unfold in_range in *; lia |].
    destruct (scan_row blo bhi i j2len js ∅ best) as [newj2len best'].
    replace (i + S n) with (S i + n) by lia.
    apply IH; [lia|done..].
Qed.

Lemma extend_left_in_range besti bestj bestsize :
  alo ≤ besti → blo ≤ bestj →
  let '(i, j, k) := extend_left a b alo blo besti bestj bestsize in
  alo ≤ i ∧ blo ≤ j ∧ i + k = besti + bestsize ∧ j + k = bestj + bestsize
  ∧ bestsize ≤ k.
Proof.
  revert bestj bestsize.
  induction besti as [|i' IH]; intros bestj bestsize Hi Hj; [cbn; lia|].
  destruct bestj as [|j']; [cbn; lia|].
  cbn [extend_left].
  destruct (bool_decide (alo < S i') && bool_decide (blo < S j') && same a i' b j')
    eqn:Hguard; [|lia].
  apply andb_true_iff in Hguard as [Hguard _].
  apply andb_true_iff in Hguard
    as [H1%bool_decide_eq_true_1 H2%bool_decide_eq_true_1].
  specialize (IH j' (S bestsize)).
  destruct (extend_left a b alo blo i' j' (S bestsize)) as [[i j] k]. lia.
Qed.

Lemma extend_right_in_range besti bestj n bestsize :
  besti + bestsize ≤ ahi → bestj + bestsize ≤ bhi →
  bestsize ≤ extend_right a b ahi bhi besti bestj n bestsize
  ∧ besti + extend_right a b ahi bhi besti bestj n bestsize ≤ ahi
  ∧ bestj + extend_right a b ahi bhi besti bestj n bestsize ≤ bhi.
Proof.
  revert bestsize. induction n as [|n IH]; intros bestsize Hi Hj; [cbn; lia|].
  cbn [extend_right].
  destruct (bool_decide (besti + bestsize < ahi)
            && bool_decide (bestj + bestsize < bhi)
            && same a (besti + bestsize) b (bestj + bestsize)) eqn:Hguard; [|lia].
  apply andb_true_iff in Hguard as [Hguard _].
  apply andb_true_iff in Hguard
    as [H1%bool_decide_eq_true_1 H2%bool_decide_eq_true_1].
  specialize (IH (S bestsize)). lia.
Qed.

Lemma find_longest_match_in_range :
  alo ≤ ahi →
  let '(i, j, k) := find_longest_match a b b2j alo ahi blo bhi in
  alo ≤ i ∧ i + k ≤ ahi ∧ blo ≤ j ∧ j + k ≤ bhi.
Proof.
  intros Ha. unfold find_longest_match.
  pose proof (scan_rows_in_range (ahi - alo) alo ∅ (alo, blo, 0)) as Hscan.
  replace (alo + (ahi - alo)) with ahi in Hscan by lia.
  destruct (scan_rows a b2j blo bhi (ahi - alo) alo ∅ (alo, blo, 0))
    as [[besti bestj] bestsize].
  destruct Hscan as (H1 & H2 & H3 & H4); [done| | |].
  { intros j k. by rewrite lookup_empty. }
  { unfold in_range. cbn. lia. }
  cbn in H1, H2, H3, H4.
  pose proof (extend_left_in_range besti bestj bestsize H1 H3) as Hleft.
  destruct (extend_left a b alo blo besti bestj bestsize) as [[i j] k].
  pose proof (extend_right_in_range i j (ahi - (i + k)) k) as Hright.
  lia.
Qed.

End ranges.

Lemma queue_weight_cons alo ahi blo bhi queue :
  queue_weight ((alo, ahi, blo, bhi) :: queue)
  = 2 * (ahi - alo) + 1 + queue_weight queue.
Proof. reflexivity. Qed.

Lemma queue_push (P Q : Prop) `{!Decision P, !Decision Q}
    alo ahi blo bhi queue :
  (P → Q → alo ≤ ahi ∧ blo ≤ bhi) → queue_ok queue →
  queue_ok (if bool_decide P && bool_decide Q
            then (alo, ahi, blo, bhi) :: queue else queue)
  ∧ queue_weight (if bool_decide P && bool_decide Q
                  then (alo, ahi, blo, bhi) :: queue else queue)
    ≤ queue_weight queue + (if bool_decide P then 2 * (ahi - alo) + 1 else 0).
Proof.
  intros Hrange Hok.
  repeat case_bool_decide; cbn [andb];
    (split; [|rewrite ?queue_weight_cons; lia]); try done.
  apply Forall_cons. split; [by apply Hrange | done].
Qed.

Lemma blocks_loop_fuel a b b2j fuel fuel' queue matching_blocks :
  queue_ok queue →
  queue_weight queue ≤ fuel → queue_weight queue ≤ fuel' →
  blocks_loop a b b2j fuel queue matching_blocks
  = blocks_loop a b b2j fuel' queue matching_blocks.
Proof.
  revert fuel' queue matching_blocks.
  induction fuel as [|fuel IH]; intros fuel' queue blocks Hok Hfuel Hfuel'.
  - destruct queue as [|[[[alo ahi] blo] bhi] queue]; [by destruct fuel'|].
    cbn in Hfuel. lia.
  - destruct queue as [|[[[alo ahi] blo] bhi] queue]; [by destruct fuel'|].
    destruct fuel' as [|fuel']; [cbn in Hfuel'; lia|].
    cbn [blocks_loop].
    apply Forall_cons in Hok as [[Ha Hb] Hok].
    pose proof (find_longest_match_in_range a b b2j alo ahi blo bhi Hb Ha)
      as Hrange.
    destruct (find_longest_match a b b2j alo ahi blo bhi) as [[i j] k].
    rewrite queue_weight_cons in Hfuel, Hfuel'.
    case_bool_decide as Hk; [|apply IH; [done|lia..]].
    set (queue1 := if bool_decide (alo < i) && bool_decide (blo < j)
                   then (alo, i, blo, j) :: queue else queue).
    set (queue2 := if bool_decide (i + k < ahi) && bool_decide (j + k < bhi)
                   then (i + k, ahi, j + k, bhi) :: queue1 else queue1).
    destruct (queue_push (alo < i) (blo < j) alo i blo j queue)
      as [Hok1 Hw1]; [lia | done |]. fold queue1 in Hok1, Hw1.
    destruct (queue_push (i + k < ahi) (j + k < bhi) (i + k) ahi (j + k) bhi queue1)
      as [Hok2 Hw2]; [lia | done |]. fold queue2 in Hok2, Hw2.
    assert (Hw : queue_weight queue2 < queue_weight queue + (2 * (ahi - alo) + 1)).
    { repeat case_bool_decide; lia. }
    apply IH; [done|lia..].
Qed.

Lemma get_matching_blocks_fuel (a b : pystr) (fuel : nat) :
  2 * length a + 1 ≤ fuel →
  blocks_loop a b (chain_b b) fuel [(0, length a, 0, length b)] []
  = blocks_loop a b (chain_b b) (2 * length a + 1)
      [(0, length a, 0, length b)] [].
Proof.
  intros Hfuel. apply blocks_loop_fuel.
  - apply Forall_cons. split; [lia | constructor].
  - rewrite queue_weight_cons. cbn. lia.
  - rewrite queue_weight_cons. cbn. lia.
Qed.

(** ** The scorer: symmetry and identity *)

(** Two empty strings score 1: [_calculate_ratio] returns 1.0 when the total
    length is 0. *)
Lemma similar_empty : similar [] [] = 1%Qc ∧ score [] [] = 1%Qc.
Proof. split; reflexivity. Qed.




(** C8. A non-empty string scores exactly 1 against itself, under [similar]
    and under the score the resolver takes. *)
Theorem similar_itself_one (x : pystr) :
  x ≠ [] → similar x x = 1%Qc ∧ score x x = 1%Qc.
Proof. intros _. split; [|unfold score]; apply similar_itself. Qed.

Lemma similar_itself_one_witness :
  py "вийти" ≠ []
  ∧ similar (py "вийти") (py "вийти") = 1%Qc
  ∧ score (py "вийти") (py "вийти") = 1%Qc.
Proof.
  assert (H : py "вийти" ≠ []) by by_evaluation.
  split; [exact H | exact (similar_itself_one (py "вийти") H)].
Defined.

(** ** The scorer and letter case *)



(** [similar] itself compares the code points as they are. *)
Remark similar_case_sensitive :
  similar (py "Hello") (py "hello") ≠ similar (py "hello") (py "hello").
Proof. by_evaluation. Qed.


(** ** The resolver *)

Section resolver.
Variable user_input : pystr.
Local Abbreviation scan := (scan user_input).

Lemma scan_keywords command st command_list :
  fold_left (try_keyword user_input command) command_list st
  = scan st (map (pair command) command_list).
Proof.
  revert st. induction command_list as [|keyword l IH]; intros st; [done|].
  cbn. apply IH.
Qed.

Lemma suggest_in_scan keywords :
  suggest_in keywords user_input = (scan (None, 0%Qc) (enumeration keywords)).1.
Proof.
  unfold suggest_in. generalize (@None pystr, 0%Qc).
  induction keywords as [|[command command_list] kws IH]; intros st; [done|].
  cbn [fold_left enumeration flat_map]. unfold scan. rewrite fold_left_app.
  rewrite IH. unfold scan. f_equal. f_equal. cbn. apply scan_keywords.
Qed.

Lemma try_keyword_taken command st keyword :
  (st.2 < score user_input keyword)%Qc →
  (threshold ≤ score user_input keyword)%Qc →
  try_keyword user_input command st keyword
  = (Some command, score user_input keyword).
Proof.
  intros Hlt Hle. unfold try_keyword.
  by rewrite !bool_decide_eq_true_2.
Qed.

Lemma try_keyword_kept command st keyword :
  ¬ (st.2 < score user_input keyword)%Qc
  ∨ ¬ (threshold ≤ score user_input keyword)%Qc →
  try_keyword user_input command st keyword = st.
Proof.
  intros H. unfold try_keyword.
  destruct H as [H|H]; rewrite (bool_decide_eq_false_2 _ H); [done|].
  by rewrite andb_false_r.
Qed.

Lemma scan_below_threshold st l :
  Forall (λ ck, (score user_input ck.2 < threshold)%Qc) l → scan st l = st.
Proof.
  induction 1 as [|ck l Hck _ IH]; [done|].
  cbn. rewrite try_keyword_kept; [exact IH|].
  right. by apply Qclt_not_le.
Qed.

Lemma scan_not_above st l m :
  (st.2 ≤ m)%Qc →
  Forall (λ ck, (score user_input ck.2 ≤ m)%Qc) l →
  ((scan st l).2 ≤ m)%Qc.
Proof.
  intros Hst Hl. revert st Hst.
  induction Hl as [|ck l Hck _ IH]; intros st Hst; [done|].
  cbn. apply IH. unfold try_keyword.
  destruct (_ && _); [exact Hck | exact Hst].
Qed.

Lemma scan_below st l m :
  (st.2 < m)%Qc →
  Forall (λ ck, (score user_input ck.2 < m)%Qc) l →
  ((scan st l).2 < m)%Qc.
Proof.
  intros Hst Hl. revert st Hst.
  induction Hl as [|ck l Hck _ IH]; intros st Hst; [done|].
  cbn. apply IH. unfold try_keyword.
  destruct (_ && _); [exact Hck | exact Hst].
Qed.

Lemma scan_maximum_kept command m l :
  Forall (λ ck, (score user_input ck.2 ≤ m)%Qc) l →
  scan (Some command, m) l = (Some command, m).
Proof.
  induction 1 as [|ck l Hck _ IH]; [done|].
  cbn. rewrite try_keyword_kept; [exact IH|].
  left. by apply Qcle_not_lt.
Qed.

Lemma scan_first_maximum st before command keyword after :
  (st.2 < score user_input keyword)%Qc →
  (threshold ≤ score user_input keyword)%Qc →
  Forall (λ ck, (score user_input ck.2 < score user_input keyword)%Qc) before →
  Forall (λ ck, (score user_input ck.2 ≤ score user_input keyword)%Qc) after →
  scan st (before ++ (command, keyword) :: after)
  = (Some command, score user_input keyword).
Proof.
  intros Hst Hthr Hbefore Hafter.
  unfold scan. rewrite fold_left_app. cbn [fold_left].
  rewrite try_keyword_taken; [| by apply scan_below | done].
  by apply scan_maximum_kept.
Qed.

Lemma scan_command st l :
  (scan st l).1 = st.1 ∨ ∃ ck, ck ∈ l ∧ (scan st l).1 = Some ck.1.
Proof.
  revert st. induction l as [|ck l IH]; intros st; [by left|].
  cbn. destruct (IH (try_keyword user_input ck.1 st ck.2)) as [H|(ck' & Hin & H)].
  - unfold scan in H. rewrite H. unfold try_keyword.
    destruct (_ && _); [right; exists ck; split; [left|done] | by left].
  - right. exists ck'. split; [by right | exact H].
Qed.

Lemma enumeration_command keywords ck :
  ck ∈ enumeration keywords → ck.1 ∈ keywords.*1.
Proof.
  unfold enumeration. intros Hck.
  apply list_elem_of_In, in_flat_map in Hck
    as ([command command_list] & Hentry & Hck).
  apply in_map_iff in Hck as (keyword & <- & _). cbn.
  apply list_elem_of_fmap. exists (command, command_list).
  split; [done | by apply list_elem_of_In].
Qed.

End resolver.

Lemma enumeration_Forall (P : pystr → Prop) keywords :
  Forall (λ entry, Forall P entry.2) keywords →
  Forall (λ ck, P ck.2) (enumeration keywords).
Proof.
  induction 1 as [|[command command_list] kws Hentry _ IH]; [constructor|].
  cbn. apply Forall_app. split; [|exact IH].
  cbn in Hentry. induction Hentry; constructor; auto.
Qed.

(** C2. When every trigger phrase of every command of the catalogue scores
    strictly below 0.3 against the input, [suggest_command] returns [None],
    whichever phrase is the best of them. *)
Theorem suggest_command_below_threshold (user_input : pystr) :
  Forall (λ entry,
            Forall (λ keyword, (score user_input keyword < threshold)%Qc) entry.2)
         keywords →
  suggest_command user_input = None.
Proof.
  intros H. unfold suggest_command. rewrite suggest_in_scan.
  rewrite scan_below_threshold; [done|].
  by apply (enumeration_Forall
              (λ keyword, (score user_input keyword < threshold)%Qc)).
Qed.

Lemma suggest_command_below_threshold_witness :
  Forall (λ entry,
            Forall (λ keyword, (score (py "xyz123") keyword < threshold)%Qc) entry.2)
         keywords
  ∧ suggest_command (py "xyz123") = None.
Proof.
  assert (H : Forall (λ entry,
            Forall (λ keyword, (score (py "xyz123") keyword < threshold)%Qc) entry.2)
         keywords).
  { by_evaluation. }
  split; [exact H | exact (suggest_command_below_threshold (py "xyz123") H)].
Defined.

(** C3. The command returned is that of the first pair, in the order the
    catalogue is enumerated, whose score reaches the maximum over the whole
    catalogue, provided that maximum is at least 0.3: every pair before it
    scores strictly less, and a later pair that scores the same does not
    replace it. *)
Theorem suggest_command_first_maximum (user_input : pystr)
    (before after : list (pystr * pystr)) (command keyword : pystr) :
  enumeration keywords = before ++ (command, keyword) :: after →
  (threshold ≤ score user_input keyword)%Qc →
  Forall (λ ck, (score user_input ck.2 < score user_input keyword)%Qc) before →
  Forall (λ ck, (score user_input ck.2 ≤ score user_input keyword)%Qc) after →
  suggest_command user_input = Some command.
Proof.
  intros Henum Hthr Hbefore Hafter.
  unfold suggest_command. rewrite suggest_in_scan, Henum.
  rewrite scan_first_maximum; [done | | done..].
  cbn. eapply Qclt_le_trans; [|exact Hthr]. done.
Qed.

Lemma suggest_command_first_maximum_witness :
  score (py "видалити запис") (py "видалити запис") = 1%Qc
  ∧ (py "видалити нотатку", py "видалити запис")
      ∈ drop 40 (enumeration keywords)
  ∧ suggest_command (py "видалити запис") = Some (py "видалити контакт").
Proof.
  split; [apply Qc_is_canon; vm_compute; reflexivity|].
  split; [by_evaluation|].
  apply (suggest_command_first_maximum (py "видалити запис")
           (take 39 (enumeration keywords)) (drop 40 (enumeration keywords))
           (py "видалити контакт") (py "видалити запис")).
  - vm_compute. reflexivity.
  - by_evaluation.
  - by_evaluation.
  - by_evaluation.
Defined.

(** The two loops over a catalogue of two commands: with the same phrase
    under both, and with the phrases "add item" and "add items", the input
    "add item" resolves to the command listed first. *)
Example suggest_in_tie :
  suggest_in [(py "A", [py "add item"]); (py "B", [py "add item"])]
    (py "add item") = Some (py "A")
  ∧ suggest_in [(py "A", [py "add item"]); (py "B", [py "add items"])]
      (py "add item") = Some (py "A").
Proof. split; vm_compute; reflexivity. Qed.

(** C9. [suggest_command] returns [None] or one of the twelve keys of the
    catalogue, never a string outside them (so no trigger phrase that is not
    itself a key). *)
Theorem suggest_command_canonical (user_input : pystr) :
  suggest_command user_input = None
  ∨ ∃ command, suggest_command user_input = Some command
               ∧ command ∈ canonical_commands.
Proof.
  unfold suggest_command. rewrite suggest_in_scan.
  destruct (scan_command user_input (None, 0%Qc) (enumeration keywords))
    as [H|(ck & Hin & H)]; [by left|].
  right. exists ck.1. split; [exact H|].
  apply enumeration_command in Hin.
  assert (Hkeys : keywords.*1 = canonical_commands) by (vm_compute; reflexivity).
  by rewrite <- Hkeys.
Qed.

(** ** The guarded input loop *)

Lemma control_commands_differ : exit_command ≠ cancel_command.
Proof. by_evaluation. Qed.

Lemma exit_resolves : suggest_command (py "exit") = Some exit_command.
Proof. vm_compute. reflexivity. Qed.

Section guarded_loop.
Context {F : Type} (validation_class : option (pystr → result F)).
Variable func : pystr → pystr.
Local Abbreviation guarded := (wrapper validation_class func).

Lemma wrapper_exit prompt user_input stdin :
  suggest_command user_input = Some exit_command →
  guarded prompt (user_input :: stdin)
  = (Returned Exited, stdin, [Prompt prompt; Printed exit_message]).
Proof. intros H. cbn [wrapper]. by rewrite H, bool_decide_eq_true_2. Qed.

Lemma wrapper_cancel prompt user_input stdin :
  suggest_command user_input = Some cancel_command →
  guarded prompt (user_input :: stdin)
  = (Returned Cancelled, stdin, [Prompt prompt; Printed cancel_message]).
Proof.
  intros H. cbn [wrapper]. rewrite H.
  rewrite bool_decide_eq_false_2.
  - by rewrite bool_decide_eq_true_2.
  - intros Heq. apply control_commands_differ. congruence.
Qed.

(** What a returned [Accepted] tells about the line that was accepted. *)
Lemma wrapper_accepted prompt stdin value stdin' out :
  guarded prompt stdin = (Returned (Accepted value), stdin', out) →
  ∃ user_input, user_input ∈ stdin ∧ value = func user_input
    ∧ suggest_command user_input ≠ Some exit_command
    ∧ suggest_command user_input ≠ Some cancel_command.
Proof.
  revert out. induction stdin as [|user_input stdin IH]; intros out; [done|].
  cbn [wrapper].
  case_bool_decide as Hexit; [done|].
  case_bool_decide as Hcancel; [done|].
  assert (Hhere : (Returned (Accepted (func user_input)), stdin, [Prompt prompt])
                  = (Returned (Accepted value), stdin', out) →
                  ∃ user_input0, user_input0 ∈ user_input :: stdin
                    ∧ value = func user_input0
                    ∧ suggest_command user_input0 ≠ Some exit_command
                    ∧ suggest_command user_input0 ≠ Some cancel_command).
  { intros [= <- <- <-]. exists user_input. split; [left|done]. }
  destruct validation_class as [validate|]; [|exact Hhere].
  destruct (validate user_input) as [v|[|e]]; [exact Hhere|done|].
  destruct (wrapper (Some validate) func prompt stdin)
    as [[r stdin''] out'] eqn:Hrest.
  intros [= -> -> <-].
  destruct (IH out' eq_refl) as (line & Hin & H).
  exists line. split; [by right | exact H].
Qed.

End guarded_loop.

(** C1. A line that [suggest_command] resolves to the exit command makes the
    loop return [Exited] at once, and one that resolves to the cancel command
    [Cancelled]: the rest of stdin is untouched, only the prompt and the
    notice are written, and neither the validation class nor [func] has a
    say, whatever they would have made of the line. *)
Theorem wrapper_control_first {F : Type}
    (validation_class : option (pystr → result F)) (func : pystr → pystr)
    (prompt user_input : pystr) (stdin : list pystr) :
  (suggest_command user_input = Some exit_command →
   wrapper validation_class func prompt (user_input :: stdin)
   = (Returned Exited, stdin, [Prompt prompt; Printed exit_message]))
  ∧ (suggest_command user_input = Some cancel_command →
     wrapper validation_class func prompt (user_input :: stdin)
     = (Returned Cancelled, stdin, [Prompt prompt; Printed cancel_message])).
Proof. split; [apply wrapper_exit | apply wrapper_cancel]. Qed.

(** The line "вийти" is a valid name and scores above the threshold against
    a phrase of "знайти контакт" as well; the loop still exits on it. *)
Lemma wrapper_control_first_witness :
  (threshold ≤ score (py "вийти") (py "знайти контакт"))%Qc
  ∧ Name (py "вийти") = Returned (py "вийти")
  ∧ wrapper (Some Name) (λ user_input, user_input) (py "> ")
      [py "вийти"; py "Bob"]
    = (Returned Exited, [py "Bob"], [Prompt (py "> "); Printed exit_message])
  ∧ wrapper (Some Name) (λ user_input, user_input) (py "> ")
      [py "отмена"; py "Bob"]
    = (Returned Cancelled, [py "Bob"], [Prompt (py "> "); Printed cancel_message]).
Proof.
  split; [by_evaluation|].
  split; [vm_compute; reflexivity|].
  assert (Hexit : suggest_command (py "вийти") = Some exit_command)
    by (vm_compute; reflexivity).
  assert (Hcancel : suggest_command (py "отмена") = Some cancel_command)
    by (vm_compute; reflexivity).
  split.
  - exact (proj1 (wrapper_control_first (Some Name) (λ user_input, user_input)
                    (py "> ") (py "вийти") [py "Bob"]) Hexit).
  - exact (proj2 (wrapper_control_first (Some Name) (λ user_input, user_input)
                    (py "> ") (py "отмена") [py "Bob"]) Hcancel).
Defined.






(** C10. A value the loop accepts (every decorated function returns the line
    itself) resolves neither to the exit nor to the cancel command.  The line
    "exit" resolves to the exit command, so it is never an accepted value, and
    the string [wrapper] returns on [Exited] differs from every accepted
    one. *)
Theorem wrapper_accepted_not_control {F : Type}
    (validation_class : option (pystr → result F)) (prompt value : pystr)
    (stdin stdin' : list pystr) (out : list event) :
  wrapper validation_class (λ user_input, user_input) prompt stdin
  = (Returned (Accepted value), stdin', out) →
  suggest_command value ≠ Some exit_command
  ∧ suggest_command value ≠ Some cancel_command
  ∧ suggest_command (py "exit") = Some exit_command
  ∧ value ≠ py "exit"
  ∧ returned_value (Accepted value) ≠ returned_value Exited
  ∧ returned_value (Accepted value) ≠ returned_value Cancelled.
Proof.
  intros H. apply wrapper_accepted in H as (line & _ & -> & Hexit & Hcancel).
  assert (Hne : line ≠ py "exit").
  { intros ->. apply Hexit, exit_resolves. }
  split; [exact Hexit|]. split; [exact Hcancel|].
  split; [exact exit_resolves|]. split; [exact Hne|].
  unfold returned_value. split; [congruence | discriminate].
Qed.

Lemma wrapper_accepted_not_control_witness :
  wrapper (Some Name) (λ user_input, user_input) (py "> ") [py "Тарас"]
  = (Returned (Accepted (py "Тарас")), [], [Prompt (py "> ")])
  ∧ suggest_command (py "Тарас") ≠ Some exit_command
  ∧ suggest_command (py "Тарас") ≠ Some cancel_command
  ∧ py "Тарас" ≠ py "exit".
Proof.
  assert (H : wrapper (Some Name) (λ user_input, user_input) (py "> ") [py "Тарас"]
              = (Returned (Accepted (py "Тарас")), [], [Prompt (py "> ")])).
  { vm_compute. reflexivity. }
  split; [exact H|].
  pose proof (wrapper_accepted_not_control (Some Name) (py "> ") (py "Тарас")
                [py "Тарас"] [] [Prompt (py "> ")] H) as (H1 & H2 & _ & H4 & _).
  auto.
Defined.

(** ** No partial commit in the add-contact branch *)

Section add_contact_facts.
Variable decimal_digit_other : N → bool.
Variable date : Type.
Variable strptime_dmY : pystr → option date.


Lemma bind_unfold {A B} (m : console A) (f : A → console B) stdin :
  bind m f stdin
  = match m stdin with
    | (Returned v, stdin', out) =>
      let '(r, stdin'', out') := f v stdin' in (r, stdin'', out ++ out')
    | (Raised exc, stdin', out) => (Raised exc, stdin', out)
    end.
Proof. reflexivity. Qed.

Lemma call_unfold (guarded : console LoopOutcome) stdin :
  call guarded stdin
  = match guarded stdin with
    | (Returned o, stdin', out) => (Returned (returned_value o), stdin', out)
    | (Raised exc, stdin', out) => (Raised exc, stdin', out)
    end.
Proof.
  unfold call. rewrite bind_unfold.
  destruct (guarded stdin) as [[[o|exc] stdin'] out]; [|done].
  unfold ret. by rewrite app_nil_r.
Qed.



(** The other dialogue with several guarded calls, editing a phone number:
    both numbers are asked for in any case, and when either call returns
    [Exited] or [Cancelled] the book is left as it was. *)
Lemma edit_contact_phone_no_partial_commit
    (book : gmap pystr (RecordObj date)) (key : pystr) (record : RecordObj date)
    (stdin stdin1 stdin2 : list pystr) (o1 o2 : LoopOutcome)
    (out1 out2 : list event) :
  get_phone decimal_digit_other prompt_old_phone stdin
  = (Returned o1, stdin1, out1) →
  get_phone decimal_digit_other prompt_new_phone stdin1
  = (Returned o2, stdin2, out2) →
  o1 = Exited ∨ o1 = Cancelled ∨ o2 = Exited ∨ o2 = Cancelled →
  edit_contact_phone decimal_digit_other date book key record stdin
  = (Returned book, stdin2, out1 ++ out2).
Proof.
  intros H1 H2 Habort. unfold edit_contact_phone.
  rewrite bind_unfold, call_unfold, H1.
  rewrite bind_unfold, call_unfold, H2.
  assert (Hvalue : ∀ stdin stdin' out prompt value,
             get_phone decimal_digit_other prompt stdin
             = (Returned (Accepted value), stdin', out) →
             value ≠ py "exit").
  { intros ????? (line & _ & -> & Hexit & _)%wrapper_accepted ->.
    apply Hexit, exit_resolves. }
  assert (Hdone : ∀ x, (let '(r, stdin'', out') := ret book stdin2 in
                        (r, stdin'', out2 ++ out')) = x →
                       (let '(r, stdin'', out') := x in
                        (r, stdin'', out1 ++ out'))
                       = (Returned book, stdin2, out1 ++ out2)).
  { intros x <-. unfold ret. by rewrite app_nil_r. }
  destruct o1 as [old_phone| |], o2 as [new_phone| |];
    unfold returned_value, unless_exit_or_None;
    try (by apply Hdone);
    try (rewrite (bool_decide_eq_false_2 (old_phone = py "exit"))
           by (by eapply Hvalue));
    try (rewrite (bool_decide_eq_true_2 (py "exit" = py "exit")) by done);
    try (by apply Hdone).
  exfalso. destruct Habort as [?|[?|[?|?]]]; discriminate.
Qed.

End add_contact_facts.


(** When all five values are accepted the record is built and stored. *)
Example add_contact_commits :
  ∃ out,
    add_contact (λ _, false) pystr Some ∅
      [py "Bob"; py "0501234567"; py "Kyiv, Khreshchatyk 1";
       py "bob@example.com"; py "01-02-1990"]
    = (Returned
         {[ py "Bob" :=
              mkRecord pystr (py "Bob") [py "0501234567"]
                (Some (py "Kyiv, Khreshchatyk 1")) (Some (py "bob@example.com"))
                (Some (py "01-02-1990")) ]},
       [], out).
Proof. eexists. vm_compute. reflexivity. Qed.

(** "cancel" at the second prompt of the phone dialogue: the record keeps its
    number. *)
Lemma edit_contact_phone_no_partial_commit_witness :
  edit_contact_phone (λ _, false) pystr
    {[ py "Bob" := mkRecord pystr (py "Bob") [py "0501234567"] None None None ]}
    (py "Bob") (mkRecord pystr (py "Bob") [py "0501234567"] None None None)
    [py "0501234567"; py "cancel"]
  = (Returned
       {[ py "Bob" := mkRecord pystr (py "Bob") [py "0501234567"] None None None ]},
     [],
     [Prompt prompt_old_phone]
     ++ [Prompt prompt_new_phone; Printed cancel_message]).
Proof.
  apply (edit_contact_phone_no_partial_commit (λ _, false) pystr _ _ _
           [py "0501234567"; py "cancel"] [py "cancel"] []
           (Accepted (py "0501234567")) Cancelled).
  - vm_compute. reflexivity.
  - vm_compute. reflexivity.
  - auto.
Defined.

(** With two accepted numbers the first is replaced in the record the book
    holds. *)
Example edit_contact_phone_commits :
  ∃ out,
    edit_contact_phone (λ _, false) pystr
      {[ py "Bob" := mkRecord pystr (py "Bob") [py "0501234567"] None None None ]}
      (py "Bob") (mkRecord pystr (py "Bob") [py "0501234567"] None None None)
      [py "0501234567"; py "0671234567"]
    = (Returned
         {[ py "Bob" :=
              mkRecord pystr (py "Bob") [py "0671234567"] None None None ]},
       [], out).
Proof. eexists. vm_compute. reflexivity. Qed.

(** *** The ratio lies between 0 and 1 *)

Lemma matched_app l1 l2 : matched (l1 ++ l2) = matched l1 + matched l2.
Proof. unfold matched. induction l1 as [|x l1 IH]; cbn; [done|]. rewrite IH. lia. Qed.

Lemma matched_insert_block x l : matched (insert_block x l) = x.2 + matched l.
Proof.
  induction l as [|y l IH]; [done|]. cbn [insert_block].
  destruct (Match_leb x y); [done|].
  change (y.2 + matched (insert_block x l) = x.2 + (y.2 + matched l)).
  rewrite IH. lia.
Qed.

Lemma matched_sort_blocks l : matched (sort_blocks l) = matched l.
Proof.
  induction l as [|x l IH]; [done|].
  change (matched (insert_block x (sort_blocks l)) = x.2 + matched l).
  by rewrite matched_insert_block, IH.
Qed.

Lemma matched_collapse i1 j1 k1 blocks non_adjacent :
  matched (collapse i1 j1 k1 blocks non_adjacent)
  = matched non_adjacent + k1 + matched blocks.
Proof.
  revert i1 j1 k1 non_adjacent.
  induction blocks as [|[[i2 j2] k2] blocks IH]; intros i1 j1 k1 non_adjacent.
  - cbn [collapse]. case_bool_decide as Hk.
    + rewrite matched_app. cbn. lia.
    + cbn. lia.
  - cbn [collapse].
    change (matched ((i2, j2, k2) :: blocks)) with (k2 + matched blocks).
    destruct (bool_decide (i1 + k1 = i2) && bool_decide (j1 + k1 = j2)).
    + rewrite IH. lia.
    + rewrite IH. case_bool_decide as Hk.
      * rewrite matched_app. cbn. lia.
      * lia.
Qed.

Lemma queue_push_span (c : bool) alo ahi blo bhi queue :
  alo ≤ ahi → blo ≤ bhi → queue_ok queue →
  queue_ok (if c then (alo, ahi, blo, bhi) :: queue else queue)
  ∧ span_a (if c then (alo, ahi, blo, bhi) :: queue else queue)
    ≤ (ahi - alo) + span_a queue
  ∧ span_b (if c then (alo, ahi, blo, bhi) :: queue else queue)
    ≤ (bhi - blo) + span_b queue.
Proof.
  intros Ha Hb Hok. destruct c.
  - split; [apply Forall_cons; split; [lia | exact Hok]|].
    unfold span_a, span_b. cbn [foldr]. lia.
  - split; [exact Hok | lia].
Qed.

Lemma blocks_loop_matched a b b2j fuel queue matching_blocks :
  queue_ok queue →
  matched (blocks_loop a b b2j fuel queue matching_blocks)
    ≤ matched matching_blocks + span_a queue
  ∧ matched (blocks_loop a b b2j fuel queue matching_blocks)
    ≤ matched matching_blocks + span_b queue.
Proof.
  revert queue matching_blocks.
  induction fuel as [|fuel IH]; intros queue blocks Hok; [cbn [blocks_loop]; lia|].
  destruct queue as [|[[[alo ahi] blo] bhi] queue]; [cbn [blocks_loop]; lia|].
  cbn [blocks_loop].
  apply Forall_cons in Hok as [[Ha Hb] Hok].
  pose proof (find_longest_match_in_range a b b2j alo ahi blo bhi Hb Ha)
    as Hrange.
  destruct (find_longest_match a b b2j alo ahi blo bhi) as [[i j] k].
  change (span_a ((alo, ahi, blo, bhi) :: queue))
    with ((ahi - alo) + span_a queue).
  change (span_b ((alo, ahi, blo, bhi) :: queue))
    with ((bhi - blo) + span_b queue).
  case_bool_decide as Hk; [|specialize (IH queue blocks Hok); lia].
  destruct (queue_push_span (bool_decide (alo < i) && bool_decide (blo < j))
              alo i blo j queue) as (Hok1 & Ha1 & Hb1); [lia | lia | done |].
  set (queue1 := if bool_decide (alo < i) && bool_decide (blo < j)
                 then (alo, i, blo, j) :: queue else queue) in *.
  destruct (queue_push_span (bool_decide (i + k < ahi) && bool_decide (j + k < bhi))
              (i + k) ahi (j + k) bhi queue1) as (Hok2 & Ha2 & Hb2);
    [lia | lia | done |].
  set (queue2 := if bool_decide (i + k < ahi) && bool_decide (j + k < bhi)
                 then (i + k, ahi, j + k, bhi) :: queue1 else queue1) in *.
  specialize (IH queue2 (blocks ++ [(i, j, k)]) Hok2).
  rewrite matched_app in IH. cbn in IH. lia.
Qed.

Lemma get_matching_blocks_matched (a b : pystr) :
  matched (get_matching_blocks a b) ≤ length a
  ∧ matched (get_matching_blocks a b) ≤ length b.
Proof.
  unfold get_matching_blocks.
  rewrite matched_app, matched_collapse, matched_sort_blocks.
  destruct (blocks_loop_matched a b (chain_b b) (2 * length a + 1)
              [(0, length a, 0, length b)] []) as [Ha Hb].
  { apply Forall_cons. split; [lia | constructor]. }
  cbn in Ha, Hb |- *. lia.
Qed.

Lemma calculate_ratio_bounds (matches length : nat) :
  2 * matches ≤ length →
  (0 ≤ calculate_ratio matches length)%Qc ∧ (calculate_ratio matches length ≤ 1)%Qc.
Proof.
  intros Hm. unfold calculate_ratio. case_bool_decide as Hl; [|done].
  destruct length as [|n]; [done|].
  split; unfold Qcle; cbn [this Q2Qc]; rewrite !Qred_correct;
    unfold Qle; cbn [Qnum Qden];
    rewrite <- ?Pos.of_nat_succ, ?Zpos_P_of_succ_nat; lia.
Qed.

(** The score is a number between 0 and 1: the blocks that
    [get_matching_blocks] returns match no element of either string twice. *)
Theorem similar_bounds (a b : pystr) :
  (0 ≤ similar a b)%Qc ∧ (similar a b ≤ 1)%Qc.
Proof.
  unfold similar, ratio.
  pose proof (get_matching_blocks_matched a b) as [Ha Hb].
  apply calculate_ratio_bounds. unfold matched in Ha, Hb. lia.
Qed.






(** ** The resolver, completely *)

Lemma threshold_positive : (0 < threshold)%Qc.
Proof. by_evaluation. Qed.

(** What the two loops have done after the pairs [l]: nothing, or the last
    update was at a pair that every earlier pair scores strictly below and no
    later pair scores above. *)
Lemma scan_result user_input st l :
  (scan user_input st l = st
   ∧ Forall (λ ck, ¬ ((st.2 < score user_input ck.2)%Qc
                      ∧ (threshold ≤ score user_input ck.2)%Qc)) l)
  ∨ ∃ before command keyword after,
      l = before ++ (command, keyword) :: after
      ∧ scan user_input st l = (Some command, score user_input keyword)
      ∧ (st.2 < score user_input keyword)%Qc
      ∧ (threshold ≤ score user_input keyword)%Qc
      ∧ Forall (λ ck, (score user_input ck.2 < score user_input keyword)%Qc) before
      ∧ Forall (λ ck, (score user_input ck.2 ≤ score user_input keyword)%Qc) after.
Proof.
  revert st. induction l as [|[c k] l IH]; intros st; [left; by split|].
  cbn [scan fold_left]. fold (scan user_input (try_keyword user_input c st k) l).
  cbn [fst snd].
  destruct (decide (st.2 < score user_input k)%Qc) as [Hlt|Hlt];
    [destruct (decide (threshold ≤ score user_input k)%Qc) as [Hthr|Hthr]|].
  1: rewrite (try_keyword_taken user_input c st k Hlt Hthr).
  2: rewrite (try_keyword_kept user_input c st k (or_intror Hthr)).
  3: rewrite (try_keyword_kept user_input c st k (or_introl Hlt)).
  - (* the pair updates *)
    destruct (IH (Some c, score user_input k))
      as [[Hsame Hl]|(before & c' & k' & after & -> & Hscan & Hlt' & Hthr' & Hb & Ha)].
    + right. exists [], c, k, l. repeat split; try done.
      eapply Forall_impl; [exact Hl|]. intros ck Hck. cbn in Hck.
      destruct (Qclt_le_dec (score user_input k) (score user_input ck.2))
        as [Hgt|Hle]; [|done].
      destruct (Qclt_le_dec (score user_input ck.2) threshold) as [Hlow|Hhigh].
      * apply Qclt_le_weak. by eapply Qclt_le_trans.
      * by destruct Hck.
    + right. exists ((c, k) :: before), c', k', after.
      repeat split; try done.
      * cbn in Hlt'. by eapply Qclt_trans.
      * by constructor.
  - (* below the threshold *)
    apply Qcnot_le_lt in Hthr.
    destruct (IH st)
      as [[Hsame Hl]|(before & c' & k' & after & -> & Hscan & Hlt' & Hthr' & Hb & Ha)].
    + left. split; [done|]. constructor; [|done].
      intros [_ H]. by apply Qcle_not_lt in H.
    + right. exists ((c, k) :: before), c', k', after.
      repeat split; try done. constructor; [|done]. by eapply Qclt_le_trans.
  - (* not above the best so far *)
    apply Qcnot_lt_le in Hlt.
    destruct (IH st)
      as [[Hsame Hl]|(before & c' & k' & after & -> & Hscan & Hlt' & Hthr' & Hb & Ha)].
    + left. split; [done|]. constructor; [|done].
      intros [H _]. by apply Qcle_not_lt in Hlt.
    + right. exists ((c, k) :: before), c', k', after.
      repeat split; try done. constructor; [|done]. by eapply Qcle_lt_trans.
Qed.

(** The command returned owns a phrase that reaches the threshold and the
    maximum over the catalogue, and is the first to reach it. *)
Theorem suggest_command_sound (user_input command : pystr) :
  suggest_command user_input = Some command →
  ∃ before keyword after,
    enumeration keywords = before ++ (command, keyword) :: after
    ∧ (threshold ≤ score user_input keyword)%Qc
    ∧ Forall (λ ck, (score user_input ck.2 < score user_input keyword)%Qc) before
    ∧ Forall (λ ck, (score user_input ck.2 ≤ score user_input keyword)%Qc) after.
Proof.
  unfold suggest_command. rewrite suggest_in_scan.
  destruct (scan_result user_input (None, 0%Qc) (enumeration keywords))
    as [[-> _]|(before & c & k & after & Hl & -> & _ & Hthr & Hb & Ha)];
    [done|].
  intros [= <-]. by exists before, k, after.
Qed.

(** A phrase that reaches the threshold is never passed over: some command is
    returned. *)
Theorem suggest_command_complete (user_input command keyword : pystr) :
  (command, keyword) ∈ enumeration keywords →
  (threshold ≤ score user_input keyword)%Qc →
  ∃ command', suggest_command user_input = Some command'.
Proof.
  intros Hin Hthr. unfold suggest_command. rewrite suggest_in_scan.
  destruct (scan_result user_input (None, 0%Qc) (enumeration keywords))
    as [[_ Hl]|(before & c & k & after & Hl & -> & _)]; [|by exists c].
  rewrite Forall_forall in Hl. destruct (Hl _ Hin). split; [|done].
  cbn. eapply Qclt_le_trans; [apply threshold_positive | done].
Qed.

Lemma suggest_command_sound_witness :
  ∃ before keyword after,
    enumeration keywords = before ++ (exit_command, keyword) :: after
    ∧ (threshold ≤ score (py "exit") keyword)%Qc
    ∧ Forall (λ ck, (score (py "exit") ck.2 < score (py "exit") keyword)%Qc) before
    ∧ Forall (λ ck, (score (py "exit") ck.2 ≤ score (py "exit") keyword)%Qc) after.
Proof. exact (suggest_command_sound (py "exit") exit_command exit_resolves). Defined.

Lemma suggest_command_complete_witness :
  ∃ command', suggest_command (py "вихд") = Some command'.
Proof.
  apply (suggest_command_complete (py "вихд") exit_command (py "вихід")).
  - by_evaluation.
  - by_evaluation.
Defined.

(** The resolver sees its input only lower-cased. *)
Lemma suggest_command_lower (a b : pystr) :
  lower a = lower b → suggest_command a = suggest_command b.
Proof.
  intros H. unfold suggest_command, suggest_in, try_keyword, score.
  by rewrite H.
Qed.

(** Every trigger phrase of the catalogue, typed in any letter case, resolves
    to the command that lists it, except the two phrases listed under two
    commands, which resolve to the first of them. *)
Theorem trigger_phrase_resolves (command keyword user_input : pystr) :
  (command, keyword) ∈ enumeration keywords →
  lower user_input = lower keyword →
  suggest_command user_input
  = Some (if bool_decide (keyword ∈ [py "видалити запис"; py "стерти запис"])
          then py "видалити контакт" else command).
Proof.
  intros Hin Hlower. rewrite (suggest_command_lower _ _ Hlower).
  assert (Hall : Forall (λ ck : pystr * pystr,
             suggest_command ck.2
             = Some (if bool_decide
                          (ck.2 ∈ [py "видалити запис"; py "стерти запис"])
                     then py "видалити контакт" else ck.1))
            (enumeration keywords)) by by_evaluation.
  rewrite Forall_forall in Hall. exact (Hall _ Hin).
Qed.

Lemma trigger_phrase_resolves_witness :
  suggest_command (py "СТЕРТИ Запис") = Some (py "видалити контакт")
  ∧ suggest_command (py "Стерти Текст") = Some (py "видалити нотатку").
Proof.
  assert (H1 : (py "видалити нотатку", py "стерти запис") ∈ enumeration keywords)
    by by_evaluation.
  assert (H2 : (py "видалити нотатку", py "стерти текст") ∈ enumeration keywords)
    by by_evaluation.
  assert (L1 : lower (py "СТЕРТИ Запис") = lower (py "стерти запис"))
    by (vm_compute; reflexivity).
  assert (L2 : lower (py "Стерти Текст") = lower (py "стерти текст"))
    by (vm_compute; reflexivity).
  split.
  - refine (eq_trans (trigger_phrase_resolves _ _ _ H1 L1) _).
    vm_compute. reflexivity.
  - refine (eq_trans (trigger_phrase_resolves _ _ _ H2 L2) _).
    vm_compute. reflexivity.
Defined.

(** ** The guarded input loop, completely *)

(** Every return of the loop comes after lines that were rejected one by one
    and a line that decided: a control command, or a line the validation
    class built a field from.  The lines are read in order, the rest of stdin
    is untouched, and the prompt is written once per line read. *)
Theorem wrapper_returned {F : Type} (validate : pystr → result F)
    (func : pystr → pystr) (prompt : pystr) (stdin stdin' : list pystr)
    (o : LoopOutcome) (out : list event) :
  wrapper (Some validate) func prompt stdin = (Returned o, stdin', out) →
  ∃ (rejected : list (pystr * pystr)) (line : pystr),
    stdin = rejected.*1 ++ line :: stdin'
    ∧ Forall (λ le, suggest_command le.1 ≠ Some exit_command
                    ∧ suggest_command le.1 ≠ Some cancel_command
                    ∧ validate le.1 = Raised (ValueError le.2)) rejected
    ∧ ((suggest_command line = Some exit_command ∧ o = Exited
        ∧ out = flat_map (λ le, [Prompt prompt; Printed (error_message le.2)])
                  rejected
                ++ [Prompt prompt; Printed exit_message])
       ∨ (suggest_command line = Some cancel_command ∧ o = Cancelled
          ∧ out = flat_map (λ le, [Prompt prompt; Printed (error_message le.2)])
                    rejected
                  ++ [Prompt prompt; Printed cancel_message])
       ∨ (suggest_command line ≠ Some exit_command
          ∧ suggest_command line ≠ Some cancel_command
          ∧ (∃ v, validate line = Returned v)
          ∧ o = Accepted (func line)
          ∧ out = flat_map (λ le, [Prompt prompt; Printed (error_message le.2)])
                    rejected
                  ++ [Prompt prompt])).
Proof.
  revert out. induction stdin as [|user_input stdin IH]; intros out;
    [discriminate|].
  cbn [wrapper].
  case_bool_decide as Hexit.
  { intros [= <- <- <-]. exists [], user_input. split; [reflexivity|].
    split; [constructor|]. left. split; [exact Hexit|]. split; reflexivity. }
  case_bool_decide as Hcancel.
  { intros [= <- <- <-]. exists [], user_input. split; [reflexivity|].
    split; [constructor|]. right. left.
    split; [exact Hcancel|]. split; reflexivity. }
  destruct (validate user_input) as [v|[|e]] eqn:Hvalidate; [|discriminate|].
  { intros [= <- <- <-]. exists [], user_input. split; [reflexivity|].
    split; [constructor|]. right. right.
    split; [exact Hexit|]. split; [exact Hcancel|]. split; [by exists v|].
    split; reflexivity. }
  destruct (wrapper (Some validate) func prompt stdin)
    as [[r stdin''] out'] eqn:Hrest.
  intros [= -> -> <-].
  destruct (IH out' eq_refl) as (rejected & line & -> & Hrejected & Hline).
  exists ((user_input, e) :: rejected), line. split; [reflexivity|].
  split; [constructor; [auto|assumption]|].
  cbn [flat_map app].
  destruct Hline as [(H1 & H2 & ->)|[(H1 & H2 & ->)|(H1 & H2 & H3 & H4 & ->)]].
  - left. split; [exact H1|]. split; [exact H2|]. reflexivity.
  - right. left. split; [exact H1|]. split; [exact H2|]. reflexivity.
  - right. right. split; [exact H1|]. split; [exact H2|]. split; [exact H3|].
    split; [exact H4|]. reflexivity.
Qed.


Lemma wrapper_returned_witness :
  ∃ (rejected : list (pystr * pystr)) (line : pystr),
    [py "B"; py "Bob"; py "Тарас"] = rejected.*1 ++ line :: [py "Тарас"]
    ∧ Forall (λ le, suggest_command le.1 ≠ Some exit_command
                    ∧ suggest_command le.1 ≠ Some cancel_command
                    ∧ Name le.1 = Raised (ValueError le.2)) rejected
    ∧ ((suggest_command line = Some exit_command ∧ Accepted (py "Bob") = Exited
        ∧ [Prompt (py "> ");
           Printed (error_message (py "Ім'я повинно містити мінімум 2 літери."));
           Prompt (py "> ")]
          = flat_map (λ le, [Prompt (py "> "); Printed (error_message le.2)])
              rejected
            ++ [Prompt (py "> "); Printed exit_message])
       ∨ (suggest_command line = Some cancel_command
          ∧ Accepted (py "Bob") = Cancelled
          ∧ [Prompt (py "> ");
             Printed (error_message (py "Ім'я повинно містити мінімум 2 літери."));
             Prompt (py "> ")]
            = flat_map (λ le, [Prompt (py "> "); Printed (error_message le.2)])
                rejected
              ++ [Prompt (py "> "); Printed cancel_message])
       ∨ (suggest_command line ≠ Some exit_command
          ∧ suggest_command line ≠ Some cancel_command
          ∧ (∃ v, Name line = Returned v)
          ∧ Accepted (py "Bob") = Accepted ((λ user_input, user_input) line)
          ∧ [Prompt (py "> ");
             Printed (error_message (py "Ім'я повинно містити мінімум 2 літери."));
             Prompt (py "> ")]
            = flat_map (λ le, [Prompt (py "> "); Printed (error_message le.2)])
                rejected
              ++ [Prompt (py "> ")])).
Proof.
  apply (wrapper_returned Name (λ user_input, user_input) (py "> ")
           [py "B"; py "Bob"; py "Тарас"] [py "Тарас"] (Accepted (py "Bob"))).
  vm_compute. reflexivity.
Defined.



(** ** The field classes *)

Local Abbreviation at_sign := 64%N.
Local Abbreviation full_stop := 46%N.

Lemma email_domain_complete (v w rest : pystr) :
  at_sign ∉ v → w ≠ [] → at_sign ∉ w →
  email_domain (v ++ [full_stop] ++ w ++ rest) = true.
Proof.
  intros Hv Hw Hw'. destruct w as [|c w]; [done|].
  apply not_elem_of_cons in Hw' as [Hc _].
  induction v as [|x v IH].
  - cbn. by rewrite (proj2 (N.eqb_neq c 64)) by done.
  - apply not_elem_of_cons in Hv as [Hx Hv].
    change (email_domain (x :: (v ++ [full_stop] ++ (c :: w) ++ rest)) = true).
    cbn [email_domain]. rewrite (IH Hv).
    rewrite (proj2 (N.eqb_neq x 64)) by done. apply orb_true_r.
Qed.

Lemma email_domain_sound (r : pystr) :
  email_domain r = true →
  ∃ v c rest, r = v ++ [full_stop; c] ++ rest ∧ (at_sign ∉ v) ∧ c ≠ at_sign.
Proof.
  induction r as [|x r IH]; [done|]. cbn [email_domain].
  intros [Hhere|Hlater]%orb_true_iff.
  - apply andb_true_iff in Hhere as [->%N.eqb_eq Hnext].
    destruct r as [|d r]; [done|].
    apply negb_true_iff, N.eqb_neq in Hnext.
    exists [], d, r. split; [done|]. split; [apply not_elem_of_nil | done].
  - apply andb_true_iff in Hlater as [Hx Hr]; apply negb_true_iff, N.eqb_neq in Hx.
    destruct (IH Hr) as (v & c & rest & -> & Hv & Hc).
    exists (x :: v), c, rest. split; [done|].
    split; [|done]. apply not_elem_of_cons. split; [congruence | done].
Qed.

Lemma email_match_complete (seen : bool) (u r : pystr) :
  at_sign ∉ u → (seen = true ∨ u ≠ []) →
  email_match seen (u ++ at_sign :: r)
  = match r with
    | d :: r' => negb (d =? 64)%N && email_domain r'
    | [] => false
    end.
Proof.
  revert seen. induction u as [|x u IH]; intros seen Hu Hseen.
  - destruct Hseen as [->|?]; [|done]. cbn. done.
  - apply not_elem_of_cons in Hu as [Hx Hu].
    cbn. rewrite (proj2 (N.eqb_neq x 64)) by done. apply IH; auto.
Qed.

Lemma email_match_sound (seen : bool) (value : pystr) :
  email_match seen value = true →
  ∃ u d r, value = u ++ at_sign :: d :: r ∧ (at_sign ∉ u) ∧ (seen = true ∨ u ≠ [])
           ∧ d ≠ at_sign ∧ email_domain r = true.
Proof.
  revert seen. induction value as [|x value IH]; intros seen; [done|].
  cbn [email_match]. destruct (x =? 64)%N eqn:Hx.
  - apply N.eqb_eq in Hx as ->.
    intros [-> Hr]%andb_true_iff. destruct value as [|d r]; [done|].
    apply andb_true_iff in Hr as [Hd Hr]; apply negb_true_iff, N.eqb_neq in Hd.
    exists [], d, r. split; [done|]. split; [apply not_elem_of_nil|]. auto.
  - apply N.eqb_neq in Hx. intros (u & d & r & -> & Hu & _ & Hd & Hr)%IH.
    exists (x :: u), d, r. split; [done|].
    split; [apply not_elem_of_cons; split; [congruence|done]|].
    split; [by right|]. done.
Qed.

(** [Email] takes exactly the strings that begin with [u@v.w] for non-empty
    [u], [v], [w] free of "@"; whatever follows is not looked at, the
    pattern having no end anchor, so an accepted address stays accepted with
    anything appended. *)
Theorem Email_accepts (value : pystr) :
  Email value = Returned value
  ↔ ∃ u v w rest,
      value = u ++ [at_sign] ++ v ++ [full_stop] ++ w ++ rest
      ∧ u ≠ [] ∧ v ≠ [] ∧ w ≠ []
      ∧ (at_sign ∉ u) ∧ (at_sign ∉ v) ∧ (at_sign ∉ w).
Proof.
  unfold Email. split.
  - destruct (email_match false value) eqn:Hmatch; [|discriminate]. intros _.
    apply email_match_sound in Hmatch
      as (u & d & r & -> & Hu & [?|Hne] & Hd & Hr); [discriminate|].
    apply email_domain_sound in Hr as (v & c & rest & -> & Hv & Hc).
    exists u, (d :: v), [c], rest. split; [done|].
    split; [done|]. split; [done|]. split; [done|]. split; [done|].
    split; [apply not_elem_of_cons; split; [congruence|done]|].
    apply not_elem_of_cons. split; [congruence | apply not_elem_of_nil].
  - intros (u & v & w & rest & -> & Hu & Hv & Hw & Hu' & Hv' & Hw').
    cbn [app]. rewrite email_match_complete; [|done|by right].
    destruct v as [|d v]; [done|].
    apply not_elem_of_cons in Hv' as [Hd Hv'].
    cbn [app]. rewrite (proj2 (N.eqb_neq d 64)) by done. cbn [negb andb].
    change (v ++ 46%N :: w ++ rest) with (v ++ [full_stop] ++ w ++ rest).
    rewrite (email_domain_complete v w rest Hv' Hw Hw'). reflexivity.
Qed.

Section Phone_class.
Variable decimal_digit_other : N → bool.

(** [Phone] takes exactly the strings of ten decimal digits, and those
    followed by one newline ([$] matches before a final newline). *)
Theorem Phone_accepts (value : pystr) :
  Phone decimal_digit_other value = Returned value
  ↔ ∃ digits,
      length digits = 10
      ∧ Forall (λ c, re_digit decimal_digit_other c = true) digits
      ∧ (value = digits ∨ value = digits ++ [10%N]).
Proof.
  unfold Phone, phone_match. split.
  - destruct (forallb _ _ && _ && _) eqn:Hmatch; [|discriminate]. intros _.
    apply andb_true_iff in Hmatch as [Hmatch Hend].
    apply andb_true_iff in Hmatch as [Hdigits Hlen].
    apply bool_decide_eq_true_1 in Hlen.
    exists (take 10 value). split; [exact Hlen|].
    split.
    { apply Forall_forall. intros c Hc. apply list_elem_of_In in Hc.
      rewrite forallb_forall in Hdigits. exact (Hdigits c Hc). }
    rewrite <- (take_drop 10 value) at 1 3.
    apply orb_true_iff in Hend as [Hend|Hend];
      apply bool_decide_eq_true_1 in Hend; rewrite Hend;
      [left; apply app_nil_r | by right].
  - intros (digits & Hlen & Hdigits & Hvalue).
    assert (Htake : take 10 value = digits).
    { destruct Hvalue as [->| ->].
      - apply take_ge. lia.
      - by rewrite take_app_length'. }
    assert (Hdrop : drop 10 value = [] ∨ drop 10 value = [10%N]).
    { destruct Hvalue as [->| ->].
      - left. apply drop_ge. lia.
      - right. by rewrite drop_app_length'. }
    rewrite Htake.
    assert (Hall : forallb (re_digit decimal_digit_other) digits = true).
    { apply forallb_forall. intros c Hc. apply list_elem_of_In in Hc.
      rewrite Forall_forall in Hdigits. exact (Hdigits c Hc). }
    rewrite Hall.
    rewrite (bool_decide_eq_true_2 _ Hlen). cbn [andb].
    destruct Hdrop as [-> | ->]; reflexivity.
Qed.

End Phone_class.

(** ** The dialogues of [main] *)

(** *** Reasoning about console computations *)

Lemma returns_ret {A} (v : A) (P : A → Prop) : P v → returns (ret v) P.
Proof. intros Hv stdin v' stdin' out [= <- _ _]. exact Hv. Qed.

Lemma returns_bind {A B} (m : console A) (f : A → console B)
    (Q : A → Prop) (P : B → Prop) :
  returns m Q → (∀ x, Q x → returns (f x) P) → returns (bind m f) P.
Proof.
  intros Hm Hf stdin v stdin' out. rewrite bind_unfold.
  destruct (m stdin) as [[[x|exc] stdin1] out1] eqn:Hmx; [|discriminate].
  destruct (f x stdin1) as [[r stdin2] out2] eqn:Hfx.
  intros [= -> _ _]. exact (Hf x (Hm _ _ _ _ Hmx) _ _ _ _ Hfx).
Qed.

Lemma returns_anything {A} (m : console A) : returns m (λ _, True).
Proof. by intros stdin v stdin' out _. Qed.

Lemma returns_print {A} (message : pystr) (k : console A) (P : A → Prop) :
  returns k P → returns (_ ⇐ print message ;; k) P.
Proof.
  intros Hk. apply (returns_bind _ _ (λ _, True)); [apply returns_anything|].
  intros _ _. exact Hk.
Qed.

Lemma returns_lift {A} (r : result A) (P : A → Prop) :
  (∀ v, r = Returned v → P v) → returns (lift r) P.
Proof. intros Hr stdin v stdin' out [= -> _ _]. by apply Hr. Qed.

Lemma raises_ret {A} (v : A) : raises_only_EOFError (ret v).
Proof. intros stdin exc stdin' out. discriminate. Qed.

Lemma raises_input (prompt : pystr) : raises_only_EOFError (input prompt).
Proof.
  intros [|line stdin] exc stdin' out; [|discriminate].
  by intros [= <- <- _].
Qed.

Lemma raises_bind {A B} (m : console A) (f : A → console B) (Q : A → Prop) :
  raises_only_EOFError m → returns m Q →
  (∀ x, Q x → raises_only_EOFError (f x)) →
  raises_only_EOFError (bind m f).
Proof.
  intros Hraises Hreturns Hf stdin exc stdin' out. rewrite bind_unfold.
  destruct (m stdin) as [[[x|exc1] stdin1] out1] eqn:Hmx.
  - destruct (f x stdin1) as [[r stdin2] out2] eqn:Hfx.
    intros [= -> -> _]. exact (Hf x (Hreturns _ _ _ _ Hmx) _ _ _ _ Hfx).
  - intros [= -> -> _]. exact (Hraises _ _ _ _ Hmx).
Qed.

Lemma raises_print {A} (message : pystr) (k : console A) :
  raises_only_EOFError k → raises_only_EOFError (_ ⇐ print message ;; k).
Proof.
  intros Hk. apply (raises_bind _ _ (λ _, True)).
  - intros stdin exc stdin' out. discriminate.
  - apply returns_anything.
  - intros _ _. exact Hk.
Qed.

Lemma raises_lift {A} (r : result A) :
  (∃ v, r = Returned v) → raises_only_EOFError (lift r).
Proof. intros [v ->] stdin exc stdin' out. discriminate. Qed.

(** *** The guarded call as [main] uses it *)

Lemma wrapper_accepted_valid {F : Type} (validate : pystr → result F)
    (func : pystr → pystr) prompt stdin value stdin' out :
  wrapper (Some validate) func prompt stdin
  = (Returned (Accepted value), stdin', out) →
  ∃ line v, value = func line ∧ validate line = Returned v
    ∧ suggest_command line ≠ Some exit_command
    ∧ suggest_command line ≠ Some cancel_command.
Proof.
  revert out. induction stdin as [|user_input stdin IH]; intros out;
    [discriminate|].
  cbn [wrapper].
  case_bool_decide as Hexit; [discriminate|].
  case_bool_decide as Hcancel; [discriminate|].
  destruct (validate user_input) as [v|[|e]] eqn:Hvalidate; [|discriminate|].
  - intros [= <- _ _]. exists user_input, v.
    split; [reflexivity|]. split; [exact Hvalidate|].
    split; [exact Hexit | exact Hcancel].
  - destruct (wrapper (Some validate) func prompt stdin)
      as [[r stdin''] out'] eqn:Hrest.
    intros [= -> -> _]. exact (IH out' eq_refl).
Qed.

Lemma raises_wrapper {F : Type} (validate : pystr → result F)
    (func : pystr → pystr) prompt :
  validating validate →
  raises_only_EOFError (wrapper (Some validate) func prompt).
Proof.
  intros Hvalidate stdin. induction stdin as [|user_input stdin IH];
    intros exc stdin' out.
  { by intros [= <- <- _]. }
  cbn [wrapper].
  case_bool_decide as Hexit; [discriminate|].
  case_bool_decide as Hcancel; [discriminate|].
  destruct (validate user_input) as [v|[|e]] eqn:Hline; [discriminate| |].
  - destruct (Hvalidate _ _ Hline) as [e He]. discriminate He.
  - destruct (wrapper (Some validate) func prompt stdin)
      as [[r stdin''] out'] eqn:Hrest.
    intros [= -> -> _]. exact (IH _ _ _ eq_refl).
Qed.

Lemma returns_call {F : Type} (validate : pystr → result F) prompt :
  returns (call (wrapper (Some validate) (λ user_input, user_input) prompt))
    (accepted_value validate).
Proof.
  intros stdin x stdin' out. rewrite call_unfold.
  destruct (wrapper _ _ prompt stdin) as [[[o|exc] stdin1] out1] eqn:Hcall;
    [|discriminate].
  intros [= <- _ _]. destruct o as [value| |]; cbn [returned_value accepted_value].
  - apply wrapper_accepted_valid in Hcall as (line & v & -> & Hv & Hexit & Hcancel).
    right. split; [|split; [by exists v|split; assumption]].
    intros ->. apply Hexit, exit_resolves.
  - exact I.
  - by left.
Qed.

Lemma raises_call {F : Type} (validate : pystr → result F) prompt :
  validating validate →
  raises_only_EOFError
    (call (wrapper (Some validate) (λ user_input, user_input) prompt)).
Proof.
  intros Hvalidate stdin exc stdin' out. rewrite call_unfold.
  destruct (wrapper _ _ prompt stdin) as [[[o|exc1] stdin1] out1] eqn:Hcall;
    [discriminate|].
  intros [= -> -> _]. exact (raises_wrapper _ _ _ Hvalidate _ _ _ _ Hcall).
Qed.

Lemma returns_unless {F A} (validate : pystr → result F)
    (x : option pystr) (continue : console A) (otherwise : pystr → console A)
    (P : A → Prop) :
  accepted_value validate x →
  returns continue P →
  (∀ value v, validate value = Returned v →
     suggest_command value ≠ Some exit_command →
     suggest_command value ≠ Some cancel_command →
     returns (otherwise value) P) →
  returns (unless_exit_or_None x continue otherwise) P.
Proof.
  intros Hx Hcontinue Hotherwise. destruct x as [value|]; [|exact Hcontinue].
  cbn [unless_exit_or_None]. case_bool_decide as Hvalue; [exact Hcontinue|].
  destruct Hx as [?|(_ & [v Hv] & Hexit & Hcancel)]; [contradiction|].
  exact (Hotherwise value v Hv Hexit Hcancel).
Qed.

Lemma raises_unless {F A} (validate : pystr → result F)
    (x : option pystr) (continue : console A) (otherwise : pystr → console A) :
  accepted_value validate x →
  raises_only_EOFError continue →
  (∀ value v, validate value = Returned v →
     raises_only_EOFError (otherwise value)) →
  raises_only_EOFError (unless_exit_or_None x continue otherwise).
Proof.
  intros Hx Hcontinue Hotherwise. destruct x as [value|]; [|exact Hcontinue].
  cbn [unless_exit_or_None]. case_bool_decide as Hvalue; [exact Hcontinue|].
  destruct Hx as [?|(_ & [v Hv] & _)]; [contradiction|].
  exact (Hotherwise value v Hv).
Qed.

(** *** The validation classes *)

Lemma Name_returns (value v : pystr) :
  Name value = Returned v → v = value ∧ 2 ≤ length value.
Proof.
  unfold Name. case_bool_decide as Hlen; [discriminate|].
  intros [= <-]. split; [reflexivity | lia].
Qed.

Lemma Address_returns (value v : pystr) :
  Address value = Returned v → v = value.
Proof. unfold Address. case_bool_decide; [discriminate|]. by intros [= <-]. Qed.

Lemma Email_returns (value v : pystr) : Email value = Returned v → v = value.
Proof. unfold Email. destruct (negb _); [discriminate|]. by intros [= <-]. Qed.

Lemma Name_validating : validating Name.
Proof.
  intros value exc. unfold Name. case_bool_decide; [|discriminate].
  intros [= <-]. by eexists.
Qed.

Lemma Address_validating : validating Address.
Proof.
  intros value exc. unfold Address. case_bool_decide; [|discriminate].
  intros [= <-]. by eexists.
Qed.

Lemma Email_validating : validating Email.
Proof.
  intros value exc. unfold Email. destruct (negb _); [|discriminate].
  intros [= <-]. by eexists.
Qed.

Section contacts.
Variable decimal_digit_other : N → bool.
Variable date : Type.
Variable strptime_dmY : pystr → option date.
Local Abbreviation Book := (gmap pystr (RecordObj date)).
Local Abbreviation valid := (record_valid decimal_digit_other date).

Lemma Phone_returns (value v : pystr) :
  Phone decimal_digit_other value = Returned v → v = value.
Proof. unfold Phone. destruct (negb _); [discriminate|]. by intros [= <-]. Qed.

Lemma Phone_validating : validating (Phone decimal_digit_other).
Proof.
  intros value exc. unfold Phone. destruct (negb _); [|discriminate].
  intros [= <-]. by eexists.
Qed.

Lemma Birthday_validating : validating (Birthday date strptime_dmY).
Proof.
  intros value exc. unfold Birthday. destruct (strptime_dmY value);
    [discriminate|].
  intros [= <-]. by eexists.
Qed.

(** *** The methods of [Record] keep the fields valid *)

Lemma edit_name_valid (self record : RecordObj date) (value : pystr) :
  valid self → edit_name date self value = Returned record → valid record.
Proof.
  intros (Hn & Hp & Hrest). unfold edit_name.
  destruct (Name value) as [v|exc] eqn:Hvalue; [|discriminate].
  intros [= <-]. apply Name_returns in Hvalue as Hv. destruct Hv as [-> _].
  split; [exact Hvalue | exact (conj Hp Hrest)].
Qed.

Lemma edit_email_valid (self record : RecordObj date) (value : pystr) :
  valid self → edit_email date self value = Returned record → valid record.
Proof.
  intros (Hn & Hp & Hps & Ha & He & Hb). unfold edit_email.
  destruct (Email value) as [v|exc] eqn:Hvalue; [|discriminate].
  intros [= <-]. apply Email_returns in Hvalue as Hv. subst v.
  split; [exact Hn|]. split; [exact Hp|]. split; [exact Hps|].
  split; [exact Ha|]. split; [|exact Hb].
  exists value. split; [reflexivity | exact Hvalue].
Qed.

Lemma edit_address_valid (self record : RecordObj date) (value : pystr) :
  valid self → edit_address date self value = Returned record → valid record.
Proof.
  intros (Hn & Hp & Hps & Ha & He & Hb). unfold edit_address.
  destruct (Address value) as [v|exc] eqn:Hvalue; [|discriminate].
  intros [= <-]. apply Address_returns in Hvalue as Hv. subst v.
  split; [exact Hn|]. split; [exact Hp|]. split; [exact Hps|].
  split; [|exact (conj He Hb)].
  exists value. split; [reflexivity | exact Hvalue].
Qed.

Lemma edit_birthday_valid (self record : RecordObj date) (value : pystr) :
  valid self → edit_birthday date strptime_dmY self value = Returned record →
  valid record.
Proof.
  intros (Hn & Hp & Hps & Ha & He & Hb). unfold edit_birthday.
  destruct (Birthday date strptime_dmY value) as [v|exc]; [|discriminate].
  intros [= <-].
  split; [exact Hn|]. split; [exact Hp|]. split; [exact Hps|].
  split; [exact Ha|]. split; [exact He | by eexists].
Qed.

(** What the loop of [Record.edit_phone] does when it finds the number. *)
Lemma replace_phone_found (phones phones' : list pystr)
    (old_phone new_phone : pystr) :
  replace_phone decimal_digit_other phones old_phone new_phone
  = Returned (Some phones') →
  ∃ before after,
    phones = before ++ old_phone :: after ∧ (old_phone ∉ before)
    ∧ phones' = before ++ new_phone :: after
    ∧ Phone decimal_digit_other new_phone = Returned new_phone.
Proof.
  revert phones'. induction phones as [|phone phones IH]; intros phones';
    [discriminate|].
  cbn [replace_phone]. case_bool_decide as Hphone.
  - destruct (Phone decimal_digit_other new_phone) as [v|exc] eqn:Hnew;
      [|discriminate].
    intros [= <-]. apply Phone_returns in Hnew as Hv. subst v phone.
    exists [], phones. split; [reflexivity|]. split; [apply not_elem_of_nil|].
    split; reflexivity.
  - destruct (replace_phone decimal_digit_other phones old_phone new_phone)
      as [[rest|]|exc]; [|discriminate..].
    intros [= <-].
    destruct (IH rest eq_refl) as (before & after & -> & Hbefore & -> & Hnew).
    exists (phone :: before), after. split; [reflexivity|].
    split; [|split; [reflexivity | exact Hnew]].
    apply not_elem_of_cons. split; [congruence | exact Hbefore].
Qed.

Lemma replace_phone_absent (phones : list pystr) (old_phone new_phone : pystr) :
  old_phone ∉ phones →
  replace_phone decimal_digit_other phones old_phone new_phone = Returned None.
Proof.
  induction phones as [|phone phones IH]; intros Hold; [reflexivity|].
  apply not_elem_of_cons in Hold as [Hne Hold]. cbn [replace_phone].
  rewrite bool_decide_eq_false_2 by congruence. by rewrite (IH Hold).
Qed.

Lemma edit_phone_valid (self record : RecordObj date)
    (old_phone new_phone : pystr) (found : bool) :
  valid self →
  edit_phone decimal_digit_other date self old_phone new_phone
  = Returned (record, found) →
  valid record.
Proof.
  intros (Hn & Hp & Hps & Hrest). unfold edit_phone.
  destruct (replace_phone decimal_digit_other (phones date self) old_phone
              new_phone) as [[phones'|]|exc] eqn:Hreplace; [| |discriminate].
  - intros [= <- _].
    apply replace_phone_found in Hreplace
      as (before & after & Hphones & _ & -> & Hnew).
    rewrite Hphones in Hps. apply Forall_app in Hps as [Hbefore Hafter].
    apply Forall_cons in Hafter as [_ Hafter].
    split; [exact Hn|]. split; [by destruct before|]. split; [|exact Hrest].
    apply Forall_app. split; [exact Hbefore|]. by constructor.
  - intros [= <- _]. exact (conj Hn (conj Hp (conj Hps Hrest))).
Qed.

End contacts.

(** One guarded call of a dialogue, followed by the check for ['exit'] and
    [None]. *)
Ltac guarded_call Hvalidating :=
  lazymatch goal with
  | |- raises_only_EOFError _ =>
    eapply raises_bind;
      [apply raises_call, Hvalidating | apply returns_call |];
    let x := fresh "x" in let Hx := fresh "Hx" in
    intros x Hx; eapply raises_unless; [exact Hx | apply raises_ret |]
  | |- returns _ _ =>
    eapply returns_bind; [apply returns_call |];
    let x := fresh "x" in let Hx := fresh "Hx" in
    intros x Hx; eapply returns_unless; [exact Hx | |]
  end.

Section dialogues.
Variable decimal_digit_other : N → bool.
Variable date : Type.
Variable strptime_dmY : pystr → option date.
Local Abbreviation Book := (gmap pystr (RecordObj date)).
Local Abbreviation valid := (record_valid decimal_digit_other date).

Lemma replace_phone_returns (phones : list pystr) (old_phone new_phone v : pystr) :
  Phone decimal_digit_other new_phone = Returned v →
  ∃ r, replace_phone decimal_digit_other phones old_phone new_phone = Returned r.
Proof.
  intros Hnew. induction phones as [|phone phones [r IH]]; [by eexists|].
  cbn [replace_phone]. case_bool_decide.
  - rewrite Hnew. by eexists.
  - rewrite IH. by eexists.
Qed.

Lemma raises_add_contact (book : Book) :
  raises_only_EOFError
    (add_contact decimal_digit_other date strptime_dmY book).
Proof.
  unfold add_contact, get_name, get_phone, get_address, get_email, get_birthday.
  guarded_call Name_validating. intros name vn Hname.
  guarded_call Phone_validating. intros phone vp Hphone.
  guarded_call Address_validating. intros address va Haddress.
  guarded_call Email_validating. intros email ve Hemail.
  guarded_call Birthday_validating. intros birthday vb Hbirthday.
  eapply raises_bind; [apply raises_lift | apply returns_anything |].
  { unfold Record_init. rewrite Hname. by eexists. }
  intros record _.
  eapply raises_bind; [apply raises_lift | apply returns_anything |].
  { unfold add_phone. rewrite Hphone. by eexists. }
  clear record. intros record _.
  eapply raises_bind; [apply raises_lift | apply returns_anything |].
  { unfold add_address. rewrite Haddress. by eexists. }
  clear record. intros record _.
  eapply raises_bind; [apply raises_lift | apply returns_anything |].
  { unfold add_email. rewrite Hemail. by eexists. }
  clear record. intros record _.
  eapply raises_bind; [apply raises_lift | apply returns_anything |].
  { unfold add_birthday. rewrite Hbirthday. by eexists. }
  clear record. intros record _.
  apply raises_print, raises_ret.
Qed.

Lemma raises_delete_contact (book : Book) :
  raises_only_EOFError (delete_contact date book).
Proof.
  unfold delete_contact.
  eapply raises_bind; [apply raises_input | apply returns_anything |].
  intros name _. destruct (exit_or_cancel name).
  - apply raises_print, raises_ret.
  - destruct (AddressBook_delete date book name).2;
      apply raises_print, raises_ret.
Qed.

Lemma raises_edit_contact_phone (book : Book) key record :
  raises_only_EOFError
    (edit_contact_phone decimal_digit_other date book key record).
Proof.
  unfold edit_contact_phone, get_phone.
  eapply raises_bind;
    [apply raises_call, Phone_validating | apply returns_call |].
  intros old_phone Hold.
  eapply raises_bind;
    [apply raises_call, Phone_validating | apply returns_call |].
  intros new_phone Hnew.
  eapply raises_unless; [exact Hold | apply raises_ret |].
  intros old vo _.
  eapply raises_unless; [exact Hnew | apply raises_ret |].
  intros new vn Hvn.
  eapply raises_bind; [apply raises_lift | apply returns_anything |].
  { unfold edit_phone.
    destruct (replace_phone_returns (phones date record) old new vn Hvn)
      as [r ->].
    by eexists. }
  intros edited _. destruct edited.2; apply raises_print, raises_ret.
Qed.

Lemma raises_edit_contact (book : Book) :
  raises_only_EOFError
    (edit_contact decimal_digit_other date strptime_dmY book).
Proof.
  unfold edit_contact.
  eapply raises_bind; [apply raises_input | apply returns_anything |].
  intros name _.
  destruct (AddressBook_find date book name) as [record|];
    [|apply raises_print, raises_ret].
  do 6 apply raises_print.
  eapply raises_bind; [apply raises_input | apply returns_anything |].
  intros field_choice _.
  unfold get_name, get_email, get_address, get_birthday.
  case_bool_decide.
  { guarded_call Name_validating. intros value v Hv.
    eapply raises_bind; [apply raises_lift | apply returns_anything |].
    { unfold edit_name. rewrite Hv. by eexists. }
    intros ? _. apply raises_print, raises_ret. }
  case_bool_decide; [apply raises_edit_contact_phone|].
  case_bool_decide.
  { guarded_call Email_validating. intros value v Hv.
    eapply raises_bind; [apply raises_lift | apply returns_anything |].
    { unfold edit_email. rewrite Hv. by eexists. }
    intros ? _. apply raises_print, raises_ret. }
  case_bool_decide.
  { guarded_call Address_validating. intros value v Hv.
    eapply raises_bind; [apply raises_lift | apply returns_anything |].
    { unfold edit_address. rewrite Hv. by eexists. }
    intros ? _. apply raises_print, raises_ret. }
  case_bool_decide.
  { guarded_call Birthday_validating. intros value v Hv.
    eapply raises_bind; [apply raises_lift | apply returns_anything |].
    { unfold edit_birthday. rewrite Hv. by eexists. }
    intros ? _. apply raises_print, raises_ret. }
  apply raises_print, raises_ret.
Qed.

(** The three dialogues on contacts raise nothing but the [EOFError] of an
    [input] that finds stdin exhausted: a value that a guarded call has
    accepted is taken by the [Record] method it is passed to. *)
Theorem contact_dialogues_raise_only_EOFError (book : Book)
    (stdin stdin' : list pystr) (exc : exception) (out : list event) :
  add_contact decimal_digit_other date strptime_dmY book stdin
  = (Raised exc, stdin', out)
  ∨ delete_contact date book stdin = (Raised exc, stdin', out)
  ∨ edit_contact decimal_digit_other date strptime_dmY book stdin
    = (Raised exc, stdin', out) →
  exc = EOFError ∧ stdin' = [].
Proof.
  intros [H|[H|H]].
  - exact (raises_add_contact book _ _ _ _ H).
  - exact (raises_delete_contact book _ _ _ _ H).
  - exact (raises_edit_contact book _ _ _ _ H).
Qed.

End dialogues.

Section book_invariants.
Variable decimal_digit_other : N → bool.
Variable date : Type.
Variable strptime_dmY : pystr → option date.
Local Abbreviation Book := (gmap pystr (RecordObj date)).
Local Abbreviation valid := (record_valid decimal_digit_other date).
Local Abbreviation book_well_formed := (well_formed decimal_digit_other date).

(** What the add-contact branch returns: the book it was given, or that book
    with a valid record stored under a name [get_name] has accepted. *)
Lemma returns_add_contact (book : Book) :
  returns (add_contact decimal_digit_other date strptime_dmY book)
    (λ book', book' = book
              ∨ ∃ record, contact_key (name date record) ∧ valid record
                  ∧ book' = <[name date record := record]> book).
Proof.
  unfold add_contact, get_name, get_phone, get_address, get_email, get_birthday.
  guarded_call Name_validating; [apply returns_ret; by left|].
  intros n vn Hname Hexit Hcancel.
  apply Name_returns in Hname as Hvn. destruct Hvn as [-> Hlen].
  guarded_call Phone_validating; [apply returns_ret; by left|].
  intros phone vp Hphone _ _.
  apply Phone_returns in Hphone as Hvp. subst vp.
  guarded_call Address_validating; [apply returns_ret; by left|].
  intros address va Haddress _ _.
  apply Address_returns in Haddress as Hva. subst va.
  guarded_call Email_validating; [apply returns_ret; by left|].
  intros email ve Hemail _ _.
  apply Email_returns in Hemail as Hve. subst ve.
  guarded_call Birthday_validating; [apply returns_ret; by left|].
  intros birthday vb Hbirthday _ _.
  apply (returns_bind _ _ (λ record, record = mkRecord date n [] None None None)).
  { apply returns_lift. intros r. unfold Record_init. rewrite Hname.
    by intros [= <-]. }
  intros ? ->.
  apply (returns_bind _ _
           (λ record, record = mkRecord date n [phone] None None None)).
  { apply returns_lift. intros r. unfold add_phone. rewrite Hphone.
    by intros [= <-]. }
  intros ? ->.
  apply (returns_bind _ _
           (λ record,
              record = mkRecord date n [phone] (Some address) None None)).
  { apply returns_lift. intros r. unfold add_address. rewrite Haddress.
    by intros [= <-]. }
  intros ? ->.
  apply (returns_bind _ _
           (λ record,
              record
              = mkRecord date n [phone] (Some address) (Some email) None)).
  { apply returns_lift. intros r. unfold add_email. rewrite Hemail.
    by intros [= <-]. }
  intros ? ->.
  apply (returns_bind _ _
           (λ record,
              record
              = mkRecord date n [phone] (Some address) (Some email)
                  (Some vb))).
  { apply returns_lift. intros r. unfold add_birthday. rewrite Hbirthday.
    by intros [= <-]. }
  intros ? ->.
  apply returns_print, returns_ret. right. eexists.
  split; [|split; [|reflexivity]]; cbn [name].
  - split; [lia | split; assumption].
  - split; [exact Hname|]. split; [discriminate|].
    split; [constructor; [exact Hphone | constructor]|].
    split; [exists address; split; [reflexivity | exact Haddress]|].
    split; [exists email; split; [reflexivity | exact Hemail] | by eexists].
Qed.

Lemma returns_delete_contact (book : Book) :
  returns (delete_contact date book)
    (λ book', book' = book ∨ ∃ name, book' = delete name book).
Proof.
  unfold delete_contact.
  eapply returns_bind; [apply returns_anything|].
  intros name _. destruct (exit_or_cancel name).
  - apply returns_print, returns_ret. by left.
  - unfold AddressBook_delete. case_bool_decide; cbn [fst snd];
      apply returns_print, returns_ret; [right; by exists name | by left].
Qed.

Lemma returns_edit_contact_phone (book : Book) key record :
  returns (edit_contact_phone decimal_digit_other date book key record)
    (edited decimal_digit_other date book key record).
Proof.
  unfold edit_contact_phone, get_phone.
  eapply returns_bind; [apply returns_call|]. intros old_phone Hold.
  eapply returns_bind; [apply returns_call|]. intros new_phone Hnew.
  eapply returns_unless; [exact Hold | apply returns_ret; by left |].
  intros old vo _ _ _.
  eapply returns_unless; [exact Hnew | apply returns_ret; by left |].
  intros new vn _ _ _.
  apply (returns_bind _ _ (λ edited, valid record → valid edited.1)).
  { apply returns_lift. intros [r found] Hr Hvalid.
    exact (edit_phone_valid _ _ _ _ _ _ _ Hvalid Hr). }
  intros [r found] Hr. cbn [fst snd] in *.
  destruct found; apply returns_print, returns_ret; [|by left].
  right. by exists r.
Qed.

Lemma returns_edit_contact (book : Book) :
  returns (edit_contact decimal_digit_other date strptime_dmY book)
    (λ book', book' = book
              ∨ ∃ key record, book !! key = Some record
                  ∧ edited decimal_digit_other date book key record book').
Proof.
  unfold edit_contact.
  eapply returns_bind; [apply returns_anything|].
  intros name _.
  destruct (AddressBook_find date book name) as [record|] eqn:Hfind;
    [|apply returns_print, returns_ret; by left].
  assert (Hedited : ∀ m, returns m (edited decimal_digit_other date book name record) →
            returns m (λ book', book' = book
                        ∨ ∃ key record, book !! key = Some record
                            ∧ edited decimal_digit_other date book key record book')).
  { intros m Hm stdin v stdin' out Hv. right. exists name, record.
    split; [exact Hfind | exact (Hm _ _ _ _ Hv)]. }
  do 6 apply returns_print.
  eapply returns_bind; [apply returns_anything|].
  intros field_choice _. apply Hedited. clear Hedited.
  unfold get_name, get_email, get_address, get_birthday.
  case_bool_decide.
  { guarded_call Name_validating; [apply returns_ret; by left|].
    intros value v Hv _ _.
    apply (returns_bind _ _ (λ record', valid record → valid record')).
    { apply returns_lift. intros r Hr Hvalid.
      exact (edit_name_valid _ _ _ _ _ Hvalid Hr). }
    intros r Hr. apply returns_print, returns_ret. right. by exists r. }
  case_bool_decide; [apply returns_edit_contact_phone|].
  case_bool_decide.
  { guarded_call Email_validating; [apply returns_ret; by left|].
    intros value v Hv _ _.
    apply (returns_bind _ _ (λ record', valid record → valid record')).
    { apply returns_lift. intros r Hr Hvalid.
      exact (edit_email_valid _ _ _ _ _ Hvalid Hr). }
    intros r Hr. apply returns_print, returns_ret. right. by exists r. }
  case_bool_decide.
  { guarded_call Address_validating; [apply returns_ret; by left|].
    intros value v Hv _ _.
    apply (returns_bind _ _ (λ record', valid record → valid record')).
    { apply returns_lift. intros r Hr Hvalid.
      exact (edit_address_valid _ _ _ _ _ Hvalid Hr). }
    intros r Hr. apply returns_print, returns_ret. right. by exists r. }
  case_bool_decide.
  { guarded_call Birthday_validating; [apply returns_ret; by left|].
    intros value v Hv _ _.
    apply (returns_bind _ _ (λ record', valid record → valid record')).
    { apply returns_lift. intros r Hr Hvalid.
      exact (edit_birthday_valid _ _ _ _ _ _ Hvalid Hr). }
    intros r Hr. apply returns_print, returns_ret. right. by exists r. }
  apply returns_print, returns_ret. by left.
Qed.

(** Whatever is typed, the edit-contact branch leaves the keys of the book as
    they are: a contact is neither added nor removed, nor filed under another
    name. *)
Theorem edit_contact_keeps_keys (book book' : Book)
    (stdin stdin' : list pystr) (out : list event) :
  edit_contact decimal_digit_other date strptime_dmY book stdin
  = (Returned book', stdin', out) →
  dom book' = dom book.
Proof.
  intros H.
  destruct (returns_edit_contact book _ _ _ _ H)
    as [->|(key & record & Hkey & [->|(record' & Hvalid & ->)])];
    [reflexivity..|].
  rewrite dom_insert_L. apply subseteq_union_1_L, singleton_subseteq_l.
  by apply elem_of_dom_2 in Hkey.
Qed.

(** The three dialogues on contacts keep the book well formed: every key is a
    name that [get_name] accepts (two characters or more, and no exit or
    cancel command), and every record has a name, at least one phone, an
    address, an e-mail and a birthday, all of which pass their validation
    classes. *)
Theorem contact_dialogues_keep_well_formed (book book' : Book)
    (stdin stdin' : list pystr) (out : list event) :
  book_well_formed book →
  add_contact decimal_digit_other date strptime_dmY book stdin
  = (Returned book', stdin', out)
  ∨ delete_contact date book stdin = (Returned book', stdin', out)
  ∨ edit_contact decimal_digit_other date strptime_dmY book stdin
    = (Returned book', stdin', out) →
  book_well_formed book'.
Proof.
  intros Hbook [H|[H|H]].
  - destruct (returns_add_contact book _ _ _ _ H)
      as [->|(record & Hkey & Hvalid & ->)]; [exact Hbook|].
    apply map_Forall_insert_2; [split; assumption | exact Hbook].
  - destruct (returns_delete_contact book _ _ _ _ H) as [->|[name ->]];
      [exact Hbook|].
    by apply map_Forall_delete.
  - destruct (returns_edit_contact book _ _ _ _ H)
      as [->|(key & record & Hkey & [->|(record' & Hvalid & ->)])];
      [exact Hbook..|].
    destruct (Hbook key record Hkey) as [Hk Hr].
    apply map_Forall_insert_2; [split; [exact Hk | exact (Hvalid Hr)] | exact Hbook].
Qed.

End book_invariants.

(** *** The paths through the dialogues that change the book *)

(** A guarded call that accepts a value, with the check that follows it. *)
Lemma guarded_accepts {F A} (validation_class : option (pystr → result F))
    (prompt : pystr) (continue : console A) (otherwise : pystr → console A)
    (stdin : list pystr) (value : pystr) (stdin1 : list pystr)
    (out1 : list event) :
  wrapper validation_class (λ user_input, user_input) prompt stdin
  = (Returned (Accepted value), stdin1, out1) →
  (x ⇐ call (wrapper validation_class (λ user_input, user_input) prompt) ;;
   unless_exit_or_None x continue otherwise) stdin
  = let '(r, stdin2, out2) := otherwise value stdin1 in
    (r, stdin2, out1 ++ out2).
Proof.
  intros Hcall. rewrite bind_unfold, call_unfold, Hcall.
  cbn [returned_value unless_exit_or_None].
  apply wrapper_accepted in Hcall as (line & _ & -> & Hexit & _).
  rewrite bool_decide_eq_false_2; [reflexivity|].
  intros ->. apply Hexit, exit_resolves.
Qed.

Lemma sequence_calls_accepted (c : console LoopOutcome)
    (calls : list (console LoopOutcome)) (stdin stdin' : list pystr)
    (outcomes : list LoopOutcome) (out : list event) :
  sequence_calls (c :: calls) stdin = (Returned outcomes, stdin', out) →
  Exited ∉ outcomes → Cancelled ∉ outcomes →
  ∃ value stdin1 out1 outcomes' out2,
    c stdin = (Returned (Accepted value), stdin1, out1)
    ∧ sequence_calls calls stdin1 = (Returned outcomes', stdin', out2)
    ∧ outcomes = Accepted value :: outcomes' ∧ out = out1 ++ out2.
Proof.
  cbn [sequence_calls]. rewrite bind_unfold.
  destruct (c stdin) as [[[[value| |]|exc] stdin1] out1]; [| | |discriminate].
  - rewrite bind_unfold.
    destruct (sequence_calls calls stdin1) as [[[os|exc] stdin2] out2]
      eqn:Hcalls; [|discriminate].
    unfold ret. rewrite app_nil_r. intros [= <- <- <-] _ _.
    exists value, stdin1, out1, os, out2.
    split; [reflexivity|]. split; [exact Hcalls|]. split; reflexivity.
  - unfold ret. intros [= <- _ _] _ Hcancelled.
    destruct Hcancelled. by left.
  - unfold ret. intros [= <- _ _] Hexited _.
    destruct Hexited. by left.
Qed.

Section paths.
Variable decimal_digit_other : N → bool.
Variable date : Type.
Variable strptime_dmY : pystr → option date.
Local Abbreviation Book := (gmap pystr (RecordObj date)).

Lemma Birthday_returns (value : pystr) (d : date) :
  Birthday date strptime_dmY value = Returned d → strptime_dmY value = Some d.
Proof.
  unfold Birthday. destruct (strptime_dmY value); [|discriminate].
  by intros [= <-].
Qed.

(** The complement of C5: when each of the five guarded calls accepts a
    value, the record built from the five values is stored under the name,
    in place of whatever the book held there, and the notice is written. *)
Theorem add_contact_stores (book : Book) (stdin stdin' : list pystr)
    (outcomes : list LoopOutcome) (out : list event) :
  sequence_calls (add_contact_calls decimal_digit_other date strptime_dmY) stdin
  = (Returned outcomes, stdin', out) →
  Exited ∉ outcomes → Cancelled ∉ outcomes →
  ∃ n p a e b d,
    outcomes = [Accepted n; Accepted p; Accepted a; Accepted e; Accepted b]
    ∧ strptime_dmY b = Some d
    ∧ add_contact decimal_digit_other date strptime_dmY book stdin
      = (Returned (<[n := mkRecord date n [p] (Some a) (Some e) (Some d)]> book),
         stdin',
         out ++ [Printed (py "Контакт " ++ n ++
                          py " успішно додано до вашої адресної книги!")]).
Proof.
  unfold add_contact_calls, get_name, get_phone, get_address, get_email,
    get_birthday.
  intros Hseq Hexited Hcancelled.
  apply sequence_calls_accepted in Hseq
    as (n & s1 & o1 & os1 & out1 & Hn & Hseq & -> & ->); [|assumption..].
  apply not_elem_of_cons in Hexited as [_ Hexited].
  apply not_elem_of_cons in Hcancelled as [_ Hcancelled].
  apply sequence_calls_accepted in Hseq
    as (p & s2 & o2 & os2 & out2 & Hp & Hseq & -> & ->); [|assumption..].
  apply not_elem_of_cons in Hexited as [_ Hexited].
  apply not_elem_of_cons in Hcancelled as [_ Hcancelled].
  apply sequence_calls_accepted in Hseq
    as (a & s3 & o3 & os3 & out3 & Ha & Hseq & -> & ->); [|assumption..].
  apply not_elem_of_cons in Hexited as [_ Hexited].
  apply not_elem_of_cons in Hcancelled as [_ Hcancelled].
  apply sequence_calls_accepted in Hseq
    as (e & s4 & o4 & os4 & out4 & He & Hseq & -> & ->); [|assumption..].
  apply not_elem_of_cons in Hexited as [_ Hexited].
  apply not_elem_of_cons in Hcancelled as [_ Hcancelled].
  apply sequence_calls_accepted in Hseq
    as (b & s5 & o5 & os5 & out5 & Hb & Hseq & -> & ->); [|assumption..].
  injection Hseq as <- <- <-.
  unfold add_contact, get_name, get_phone, get_address, get_email,
    get_birthday.
  rewrite (guarded_accepts _ _ _ _ _ _ _ _ Hn).
  rewrite (guarded_accepts _ _ _ _ _ _ _ _ Hp).
  rewrite (guarded_accepts _ _ _ _ _ _ _ _ Ha).
  rewrite (guarded_accepts _ _ _ _ _ _ _ _ He).
  rewrite (guarded_accepts _ _ _ _ _ _ _ _ Hb).
  apply wrapper_accepted_valid in Hn as (n' & vn & -> & Hn & _).
  apply wrapper_accepted_valid in Hp as (p' & vp & -> & Hp & _).
  apply wrapper_accepted_valid in Ha as (a' & va & -> & Ha & _).
  apply wrapper_accepted_valid in He as (e' & ve & -> & He & _).
  apply wrapper_accepted_valid in Hb as (b' & d & -> & Hb & _).
  apply Name_returns in Hn as Hvn. destruct Hvn as [-> _].
  apply Phone_returns in Hp as Hvp. subst vp.
  apply Address_returns in Ha as Hva. subst va.
  apply Email_returns in He as Hve. subst ve.
  exists n', p', a', e', b', d. split; [reflexivity|].
  split; [by apply Birthday_returns|].
  unfold bind, lift, print, ret, Record_init, add_phone, add_address,
    add_email, add_birthday, add_record.
  rewrite Hn. cbn [map_result name phones address email birthday].
  rewrite Hp. cbn [map_result name phones address email birthday].
  rewrite Ha. cbn [map_result name phones address email birthday].
  rewrite He. cbn [map_result name phones address email birthday].
  rewrite Hb. cbn [map_result name phones address email birthday app].
  rewrite !app_nil_r, <- !app_assoc. reflexivity.
Qed.


Lemma print_unfold {A} (message : pystr) (k : console A) (stdin : list pystr) :
  (_ ⇐ print message ;; k) stdin
  = let '(r, stdin', out) := k stdin in (r, stdin', Printed message :: out).
Proof. reflexivity. Qed.

Lemma input_unfold {A} (prompt : pystr) (k : pystr → console A)
    (user_input : pystr) (stdin : list pystr) :
  (x ⇐ input prompt ;; k x) (user_input :: stdin)
  = let '(r, stdin', out) := k user_input stdin in
    (r, stdin', Prompt prompt :: out).
Proof. reflexivity. Qed.

(** Choice "1" of the edit-contact branch changes the name inside the record
    and leaves the record filed under the name it had: the book is looked up
    by the old name as before, and the new name finds what it found
    before. *)
Theorem edit_contact_name_keeps_key (book : Book) (key new_name : pystr)
    (record : RecordObj date) (stdin stdin' : list pystr) (out : list event) :
  book !! key = Some record →
  get_name (py "Введіть нове ім'я: ") stdin
  = (Returned (Accepted new_name), stdin', out) →
  ∃ book' out',
    edit_contact decimal_digit_other date strptime_dmY book
      (key :: py "1" :: stdin)
    = (Returned book', stdin', out')
    ∧ AddressBook_find date book' key
      = Some (mkRecord date new_name (phones date record)
                (address date record) (email date record)
                (birthday date record))
    ∧ ∀ other, other ≠ key →
        AddressBook_find date book' other = AddressBook_find date book other.
Proof.
  intros Hkey Hname. unfold edit_contact.
  rewrite input_unfold. unfold AddressBook_find at 1. rewrite Hkey.
  rewrite !print_unfold, input_unfold.
  rewrite (bool_decide_eq_true_2 (py "1" = py "1")) by reflexivity.
  unfold get_name in *. rewrite (guarded_accepts _ _ _ _ _ _ _ _ Hname).
  apply wrapper_accepted_valid in Hname as (line & v & -> & Hv & _).
  apply Name_returns in Hv as Hline. destruct Hline as [-> _].
  unfold bind, lift, print, ret, edit_name. rewrite Hv.
  cbn [map_result]. lazy beta iota zeta.
  eexists _, _. split; [reflexivity|]. unfold AddressBook_find.
  split; [apply lookup_insert_eq|].
  intros other Hother. by apply lookup_insert_ne.
Qed.

(** A contact that the add-contact branch has filed under a name the book
    did not hold is removed again by the delete-contact branch when that
    name is typed: the book is as before the two. *)
Theorem add_contact_then_delete_contact (book book' : Book) (n : pystr)
    (stdin stdin' rest : list pystr) (out : list event) :
  add_contact decimal_digit_other date strptime_dmY book stdin
  = (Returned book', stdin', out) →
  book !! n = None → is_Some (book' !! n) →
  delete_contact date book' (n :: rest)
  = (Returned book, rest,
     [Prompt (py "Введіть ім'я для видалення: ");
      Printed (py "Контакт " ++ n ++ py " успішно видалено.")]).
Proof.
  intros Hadd Hnew Hstored.
  destruct (returns_add_contact _ _ _ book _ _ _ _ Hadd)
    as [->|(record & (_ & Hexit & Hcancel) & _ & ->)].
  { rewrite Hnew in Hstored. by destruct Hstored. }
  destruct (decide (name date record = n)) as [<-|Hne];
    [|rewrite lookup_insert_ne, Hnew in Hstored by done; by destruct Hstored].
  unfold delete_contact. rewrite input_unfold.
  unfold exit_or_cancel. rewrite !bool_decide_eq_false_2 by assumption.
  cbn [orb]. unfold AddressBook_delete.
  rewrite bool_decide_eq_true_2 by (rewrite lookup_insert_eq; by eexists).
  cbn [fst snd]. rewrite print_unfold. unfold ret.
  by rewrite delete_insert_eq, delete_id.
Qed.

(** [Record.edit_phone] replaces the first phone equal to [old_phone] and
    nothing else; when there is none it returns [False] with the record as it
    was (and without a look at [new_phone]). *)
Theorem edit_phone_replaces_first (self record : RecordObj date)
    (old_phone new_phone : pystr) (found : bool) :
  edit_phone decimal_digit_other date self old_phone new_phone
  = Returned (record, found) →
  (found = false ∧ record = self ∧ old_phone ∉ phones date self)
  ∨ (found = true
     ∧ Phone decimal_digit_other new_phone = Returned new_phone
     ∧ ∃ before after,
         phones date self = before ++ old_phone :: after
         ∧ (old_phone ∉ before)
         ∧ record = mkRecord date (name date self)
                      (before ++ new_phone :: after) (address date self)
                      (email date self) (birthday date self)).
Proof.
  unfold edit_phone.
  destruct (replace_phone decimal_digit_other (phones date self) old_phone
              new_phone) as [[phones'|]|exc] eqn:Hreplace; [| |discriminate].
  - intros [= <- <-]. right. split; [reflexivity|].
    apply replace_phone_found in Hreplace
      as (before & after & Hphones & Hbefore & -> & Hnew).
    split; [exact Hnew|]. exists before, after.
    split; [exact Hphones|]. split; [exact Hbefore | reflexivity].
  - intros [= <- <-]. left. split; [reflexivity|]. split; [reflexivity|].
    clear -Hreplace. revert Hreplace.
    induction (phones date self) as [|phone l IH]; intros Hreplace;
      [apply not_elem_of_nil|].
    cbn [replace_phone] in Hreplace. case_bool_decide as Hphone.
    + by destruct (Phone decimal_digit_other new_phone).
    + destruct (replace_phone decimal_digit_other l old_phone new_phone)
        as [[?|]|?]; [discriminate| |discriminate].
      apply not_elem_of_cons. split; [congruence | by apply IH].
Qed.

End paths.

(** ** Notes *)

(** *** [str.split] and [str.join] *)

Lemma str_split_nonempty (sep : N) (s : pystr) : str_split sep s ≠ [].
Proof.
  destruct s as [|c s]; [discriminate|]. cbn [str_split].
  destruct (c =? sep)%N; [discriminate|].
  destruct (str_split sep s); discriminate.
Qed.

(** Joining the pieces of a line gives the line back, so the check that
    [main] makes on [','.join(tags)] is a check of the line typed. *)
Lemma str_join_split (sep : N) (s : pystr) :
  str_join [sep] (str_split sep s) = s.
Proof.
  induction s as [|c s IH]; [reflexivity|]. cbn [str_split].
  pose proof (str_split_nonempty sep s) as Hne.
  destruct (c =? sep)%N eqn:Hc.
  - apply N.eqb_eq in Hc as ->.
    destruct (str_split sep s) as [|piece pieces]; [done|].
    change (str_join [sep] ([] :: piece :: pieces))
      with ([] ++ [sep] ++ str_join [sep] (piece :: pieces)).
    by rewrite IH.
  - destruct (str_split sep s) as [|piece pieces]; [done|].
    destruct pieces as [|piece' pieces].
    + cbn [str_join] in *. by rewrite IH.
    + change (str_join [sep] ((c :: piece) :: piece' :: pieces))
        with (c :: (piece ++ [sep] ++ str_join [sep] (piece' :: pieces))).
      change (str_join [sep] (piece :: piece' :: pieces))
        with (piece ++ [sep] ++ str_join [sep] (piece' :: pieces)) in IH.
      by rewrite IH.
Qed.

(** *** [class Note] *)

Lemma list_remove_last (x : pystr) (l : list pystr) :
  x ∉ l → list_remove x (l ++ [x]) = l.
Proof.
  induction l as [|y l IH]; intros Hx.
  - cbn. by rewrite bool_decide_eq_true_2.
  - apply not_elem_of_cons in Hx as [Hne Hx]. cbn [app list_remove].
    rewrite bool_decide_eq_false_2 by congruence. by rewrite (IH Hx).
Qed.

Lemma list_remove_subseteq (x y : pystr) (l : list pystr) :
  y ∈ list_remove x l → y ∈ l.
Proof.
  induction l as [|z l IH]; [done|]. cbn [list_remove].
  case_bool_decide; [by right|].
  intros [->|Hy]%elem_of_cons; [by left | right; by apply IH].
Qed.

Lemma list_remove_NoDup (x : pystr) (l : list pystr) :
  NoDup l → NoDup (list_remove x l) ∧ x ∉ list_remove x l.
Proof.
  induction 1 as [|y l Hy Hl IH]; [split; [constructor | apply not_elem_of_nil]|].
  cbn [list_remove]. case_bool_decide as Hyx.
  - subst y. by split.
  - destruct IH as [IH1 IH2]. split.
    + constructor; [|exact IH1]. intros Hin.
      apply list_remove_subseteq in Hin. contradiction.
    + apply not_elem_of_cons. split; [congruence | exact IH2].
Qed.

(** A tag that is added to a note without it and then removed leaves the
    note as it was. *)
Theorem remove_tag_add_tag (self : NoteObj) (tag : pystr) :
  tag ∉ tags self → remove_tag (add_tag self tag) tag = self.
Proof.
  intros Htag. destruct self as [t ts]. cbn [tags] in Htag.
  unfold add_tag. cbn [tags text].
  rewrite bool_decide_eq_true_2 by done.
  unfold remove_tag. cbn [tags text].
  rewrite bool_decide_eq_true_2 by (apply elem_of_app; right; by left).
  by rewrite list_remove_last.
Qed.

Lemma remove_tag_add_tag_witness :
  remove_tag (add_tag (mkNote (py "buy milk") [py "home"]) (py "shop")) (py "shop")
  = mkNote (py "buy milk") [py "home"].
Proof. apply remove_tag_add_tag. by_evaluation. Defined.

(** [add_tag] and [remove_tag] keep a list of tags free of duplicates, and
    on such a list [remove_tag] leaves no occurrence of the tag.  (The tags
    typed in [main] come from [split] and may hold duplicates; [remove_tag]
    then takes out the first occurrence only.) *)
Theorem Note_tags_NoDup (self : NoteObj) (tag : pystr) :
  NoDup (tags self) →
  NoDup (tags (add_tag self tag))
  ∧ NoDup (tags (remove_tag self tag))
  ∧ tag ∉ tags (remove_tag self tag).
Proof.
  intros Hself. split; [|].
  - unfold add_tag. case_bool_decide as Htag; [|exact Hself].
    cbn [tags]. apply NoDup_app. split; [exact Hself|].
    split; [|apply NoDup_singleton].
    intros x Hx ->%list_elem_of_singleton. contradiction.
  - unfold remove_tag. case_bool_decide as Htag; [|by split].
    cbn [tags]. by apply list_remove_NoDup.
Qed.

Lemma Note_tags_NoDup_witness :
  NoDup (tags (add_tag (mkNote (py "buy milk") [py "home"]) (py "home")))
  ∧ NoDup (tags (remove_tag (mkNote (py "buy milk") [py "home"]) (py "home")))
  ∧ py "home" ∉ tags (remove_tag (mkNote (py "buy milk") [py "home"]) (py "home")).
Proof.
  apply Note_tags_NoDup. cbn [tags]. apply NoDup_singleton.
Defined.

(** *** The dialogues on notes *)

(** The add-note branch, when neither line is an exit or cancel command:
    the note is filed under its text, in place of whatever the notebook held
    there, with the pieces of the second line between commas as its tags (a
    single empty tag when the line is empty). *)
Theorem add_note_stores (notebook : gmap pystr NoteObj) (text line : pystr)
    (stdin : list pystr) :
  exit_or_cancel text = false → exit_or_cancel line = false →
  add_note notebook (text :: line :: stdin)
  = (Returned (<[text := mkNote text (str_split comma line)]> notebook), stdin,
     [Prompt (py "Введіть текст нотатки: ");
      Prompt (py "Введіть теги через кому: ");
      Printed (py "Нотатку успішно додано!")]).
Proof.
  intros Htext Hline. unfold add_note.
  rewrite input_unfold, Htext, input_unfold. lazy zeta.
  rewrite str_join_split, Hline, print_unfold.
  unfold ret, NoteBook_add_note, Note_init.
  pose proof (str_split_nonempty comma line) as Hne.
  by destruct (str_split comma line).
Qed.

Lemma add_note_stores_witness :
  add_note ∅ [py "buy milk"; []; py "next"]
  = (Returned (<[py "buy milk" := mkNote (py "buy milk") (str_split comma [])]> ∅),
     [py "next"],
     [Prompt (py "Введіть текст нотатки: ");
      Prompt (py "Введіть теги через кому: ");
      Printed (py "Нотатку успішно додано!")]).
Proof. apply add_note_stores; vm_compute; reflexivity. Defined.

(** Choice "1" of the edit-note branch files the note under the new text and
    removes the old key, in this order: a note whose text is "changed" to
    the text it has is deleted.  Only the literal line [exit] leaves the note
    alone; the line is not looked at for commands. *)
Theorem edit_note_text_moves (notebook : gmap pystr NoteObj)
    (old_text new_text : pystr) (note : NoteObj) (stdin : list pystr) :
  notebook !! old_text = Some note → new_text ≠ py "exit" →
  ∃ notebook' out,
    edit_note notebook (old_text :: py "1" :: new_text :: stdin)
    = (Returned notebook', stdin, out)
    ∧ NoteBook_find notebook' old_text = None
    ∧ (new_text ≠ old_text →
       NoteBook_find notebook' new_text = Some (mkNote new_text (tags note)))
    ∧ ∀ other, other ≠ old_text → other ≠ new_text →
        NoteBook_find notebook' other = NoteBook_find notebook other.
Proof.
  intros Hnote Hnew. unfold edit_note.
  rewrite input_unfold. unfold NoteBook_find at 1. rewrite Hnote.
  rewrite !print_unfold, input_unfold.
  rewrite (bool_decide_eq_true_2 (py "1" = py "1")) by reflexivity.
  rewrite input_unfold, (bool_decide_eq_false_2 _ Hnew). lazy zeta.
  rewrite print_unfold. unfold ret, NoteBook_delete, NoteBook_add_note, edit_text.
  cbn [text tags].
  rewrite bool_decide_eq_true_2.
  2:{ destruct (decide (new_text = old_text)) as [->|Hne].
      - rewrite lookup_insert_eq. by eexists.
      - rewrite lookup_insert_ne, lookup_insert_eq by done. by eexists. }
  cbn [fst]. eexists _, _. split; [reflexivity|]. unfold NoteBook_find.
  split; [apply lookup_delete_eq|]. split.
  - intros Hne. rewrite lookup_delete_ne by done. apply lookup_insert_eq.
  - intros other H1 H2.
    by rewrite lookup_delete_ne, !lookup_insert_ne by done.
Qed.

Lemma edit_note_text_moves_witness :
  ∃ notebook' out,
    edit_note {[ py "buy milk" := mkNote (py "buy milk") [py "home"] ]}
      [py "buy milk"; py "1"; py "buy milk"]
    = (Returned notebook', [], out)
    ∧ NoteBook_find notebook' (py "buy milk") = None
    ∧ (py "buy milk" ≠ py "buy milk" →
       NoteBook_find notebook' (py "buy milk")
       = Some (mkNote (py "buy milk") (tags (mkNote (py "buy milk") [py "home"]))))
    ∧ ∀ other, other ≠ py "buy milk" → other ≠ py "buy milk" →
        NoteBook_find notebook' other
        = NoteBook_find {[ py "buy milk" := mkNote (py "buy milk") [py "home"] ]}
            other.
Proof.
  apply edit_note_text_moves.
  - apply lookup_singleton_eq.
  - by_evaluation.
Defined.

Lemma returns_add_note (notebook : gmap pystr NoteObj) :
  returns (add_note notebook)
    (λ notebook', notebook' = notebook
                  ∨ ∃ note, notebook' = <[text note := note]> notebook).
Proof.
  unfold add_note.
  eapply returns_bind; [apply returns_anything|]. intros text _.
  destruct (exit_or_cancel text);
    [apply returns_print, returns_ret; by left|].
  eapply returns_bind; [apply returns_anything|]. intros line _. lazy zeta.
  destruct (exit_or_cancel _);
    [apply returns_print, returns_ret; by left|].
  apply returns_print, returns_ret. right. by eexists.
Qed.

Lemma returns_delete_note (notebook : gmap pystr NoteObj) :
  returns (delete_note notebook)
    (λ notebook', notebook' = notebook ∨ ∃ text, notebook' = delete text notebook).
Proof.
  unfold delete_note.
  eapply returns_bind; [apply returns_anything|]. intros text _.
  destruct (exit_or_cancel text);
    [apply returns_print, returns_ret; by left|].
  unfold NoteBook_delete. lazy zeta. case_bool_decide; cbn [fst snd];
    apply returns_print, returns_ret; [right; by exists text | by left].
Qed.

Lemma returns_edit_note (notebook : gmap pystr NoteObj) :
  keyed_by_text notebook →
  returns (edit_note notebook) keyed_by_text.
Proof.
  intros Hnotebook. unfold edit_note.
  eapply returns_bind; [apply returns_anything|]. intros old_text _.
  destruct (NoteBook_find notebook old_text) as [note|] eqn:Hnote;
    [|by apply returns_print, returns_ret].
  do 3 apply returns_print.
  eapply returns_bind; [apply returns_anything|]. intros field_choice _.
  case_bool_decide.
  { eapply returns_bind; [apply returns_anything|]. intros new_text _.
    case_bool_decide; [by apply returns_ret|]. lazy zeta.
    apply returns_print, returns_ret.
    unfold NoteBook_delete, NoteBook_add_note, edit_text. cbn [text tags].
    assert (Hmoved : keyed_by_text
              (delete old_text (<[new_text := mkNote new_text (tags note)]>
                              (<[old_text := mkNote new_text (tags note)]> notebook)))).
    { intros key note'. destruct (decide (key = old_text)) as [->|Hkey].
      - by rewrite lookup_delete_eq.
      - rewrite lookup_delete_ne by done.
        destruct (decide (key = new_text)) as [->|Hkey'].
        + rewrite lookup_insert_eq. by intros [= <-].
        + rewrite !lookup_insert_ne by done. apply Hnotebook. }
    case_bool_decide as Hthere; [exact Hmoved|]. cbn [fst].
    destruct Hthere. destruct (decide (new_text = old_text)) as [->|Hne].
    - rewrite lookup_insert_eq. by eexists.
    - rewrite lookup_insert_ne, lookup_insert_eq by done. by eexists. }
  case_bool_decide.
  { eapply returns_bind; [apply returns_anything|]. intros line _. lazy zeta.
    apply returns_print, returns_ret.
    apply map_Forall_insert_2; [|exact Hnotebook].
    unfold edit_tags. cbn [text]. exact (Hnotebook _ _ Hnote). }
  by apply returns_print, returns_ret.
Qed.

(** The three dialogues on notes keep every note filed under its own text
    (which for contacts the edit-contact branch does not do). *)
Theorem note_dialogues_keep_keys (notebook notebook' : gmap pystr NoteObj)
    (stdin stdin' : list pystr) (out : list event) :
  keyed_by_text notebook →
  add_note notebook stdin = (Returned notebook', stdin', out)
  ∨ edit_note notebook stdin = (Returned notebook', stdin', out)
  ∨ delete_note notebook stdin = (Returned notebook', stdin', out) →
  keyed_by_text notebook'.
Proof.
  intros Hnotebook [H|[H|H]].
  - destruct (returns_add_note notebook _ _ _ _ H) as [->|[note ->]];
      [exact Hnotebook|].
    by apply map_Forall_insert_2.
  - exact (returns_edit_note notebook Hnotebook _ _ _ _ H).
  - destruct (returns_delete_note notebook _ _ _ _ H) as [->|[text ->]];
      [exact Hnotebook|].
    by apply map_Forall_delete.
Qed.

(** ** The choice of the branch in [main] *)

Lemma suggest_command_key (user_input command : pystr) :
  suggest_command user_input = Some command → command ∈ canonical_commands.
Proof.
  unfold suggest_command. rewrite suggest_in_scan.
  destruct (scan_command user_input (None, 0%Qc) (enumeration keywords))
    as [H|(ck & Hin & H)]; rewrite H; [discriminate|].
  intros [= <-]. apply enumeration_command in Hin.
  assert (Hkeys : keywords.*1 = canonical_commands) by (vm_compute; reflexivity).
  by rewrite <- Hkeys.
Qed.

(** The final [else] of the main loop ("I do not recognise this command") is
    taken exactly when the line resolves to the cancel command, the one key
    of the catalogue without a branch; "could not recognise" is written
    exactly when [suggest_command] returns [None]. *)
Theorem dispatch_unknown (user_input : pystr) :
  (dispatch (suggest_command user_input) = Unknown
   ↔ suggest_command user_input = Some cancel_command)
  ∧ (dispatch (suggest_command user_input) = Unrecognised
     ↔ suggest_command user_input = None).
Proof.
  destruct (suggest_command user_input) as [command|] eqn:Hcommand;
    [|split; split; (reflexivity || discriminate)].
  apply suggest_command_key in Hcommand.
  assert (Hall : Forall (λ command,
                    (dispatch (Some command) = Unknown ↔ command = cancel_command)
                    ∧ dispatch (Some command) ≠ Unrecognised)
                   canonical_commands).
  { repeat (constructor;
            [split; [split; vm_compute; (reflexivity || discriminate)
                    | vm_compute; discriminate]|]).
    constructor. }
  rewrite Forall_forall in Hall. destruct (Hall _ Hcommand) as [[H1 H2] H3].
  split; split.
  - intros H. f_equal. by apply H1.
  - intros [= ->]. by apply H2.
  - intros H. contradiction.
  - discriminate.
Qed.

(** ** Runs of the dialogues *)

(** Stdin ends at the phone prompt of the add-contact branch. *)
Lemma contact_dialogues_raise_only_EOFError_witness :
  add_contact (λ _, false) pystr Some ∅ [py "Bob"]
  = (Raised EOFError, [], [Prompt prompt_name; Prompt prompt_phone])
  ∧ EOFError = EOFError ∧ ([] : list pystr) = [].
Proof.
  assert (H : add_contact (λ _, false) pystr Some ∅ [py "Bob"]
              = (Raised EOFError, [], [Prompt prompt_name; Prompt prompt_phone]))
    by (vm_compute; reflexivity).
  split; [exact H|].
  exact (contact_dialogues_raise_only_EOFError (λ _, false) pystr Some ∅
           [py "Bob"] [] EOFError [Prompt prompt_name; Prompt prompt_phone]
           (or_introl H)).
Defined.

(** The book after Bob has been added to the empty book. *)
Lemma contact_dialogues_keep_well_formed_witness :
  well_formed (λ _, false) pystr
    {[ py "Bob" :=
         mkRecord pystr (py "Bob") [py "0501234567"]
           (Some (py "Kyiv, Khreshchatyk 1")) (Some (py "bob@example.com"))
           (Some (py "01-02-1990")) ]}.
Proof.
  assert (H : add_contact (λ _, false) pystr Some ∅
                [py "Bob"; py "0501234567"; py "Kyiv, Khreshchatyk 1";
                 py "bob@example.com"; py "01-02-1990"]
              = (Returned
                   {[ py "Bob" :=
                        mkRecord pystr (py "Bob") [py "0501234567"]
                          (Some (py "Kyiv, Khreshchatyk 1"))
                          (Some (py "bob@example.com"))
                          (Some (py "01-02-1990")) ]},
                 [],
                 [Prompt prompt_name; Prompt prompt_phone;
                  Prompt prompt_address; Prompt prompt_email;
                  Prompt prompt_birthday;
                  Printed (py "Контакт Bob успішно додано до вашої адресної книги!")]))
    by (vm_compute; reflexivity).
  exact (contact_dialogues_keep_well_formed (λ _, false) pystr Some ∅ _ _ _ _
           (map_Forall_empty _) (or_introl H)).
Defined.

(** Bob is renamed to Bobby; the one key of the book is still "Bob". *)
Lemma edit_contact_keeps_keys_witness :
  dom ({[ py "Bob" :=
            mkRecord pystr (py "Bobby") [py "0501234567"] None None None ]}
       : gmap pystr (RecordObj pystr))
  = dom ({[ py "Bob" :=
              mkRecord pystr (py "Bob") [py "0501234567"] None None None ]}
         : gmap pystr (RecordObj pystr)).
Proof.
  assert (H : edit_contact (λ _, false) pystr Some
                {[ py "Bob" :=
                     mkRecord pystr (py "Bob") [py "0501234567"] None None None ]}
                [py "Bob"; py "1"; py "Bobby"]
              = (Returned
                   {[ py "Bob" :=
                        mkRecord pystr (py "Bobby") [py "0501234567"]
                          None None None ]},
                 [],
                 [Prompt (py "Введіть ім'я контакту, який потрібно редагувати: ");
                  Printed (py "Оберіть поле для редагування:");
                  Printed (py "1. Ім'я");
                  Printed (py "2. Номер телефону");
                  Printed (py "3. Email");
                  Printed (py "4. Адреса");
                  Printed (py "5. День народження");
                  Prompt (py "Введіть номер поля: ");
                  Prompt (py "Введіть нове ім'я: ");
                  Printed (py "Ім'я успішно змінено.")]))
    by (vm_compute; reflexivity).
  exact (edit_contact_keeps_keys (λ _, false) pystr Some _ _ _ _ _ H).
Defined.

Lemma add_contact_stores_witness :
  ∃ n p a e b d,
    [Accepted (py "Bob"); Accepted (py "0501234567");
     Accepted (py "Kyiv, Khreshchatyk 1"); Accepted (py "bob@example.com");
     Accepted (py "01-02-1990")]
    = [Accepted n; Accepted p; Accepted a; Accepted e; Accepted b]
    ∧ Some b = Some d
    ∧ add_contact (λ _, false) pystr Some ∅
        [py "Bob"; py "0501234567"; py "Kyiv, Khreshchatyk 1";
         py "bob@example.com"; py "01-02-1990"; py "next"]
      = (Returned (<[n := mkRecord pystr n [p] (Some a) (Some e) (Some d)]> ∅),
         [py "next"],
         [Prompt prompt_name; Prompt prompt_phone; Prompt prompt_address;
          Prompt prompt_email; Prompt prompt_birthday]
         ++ [Printed (py "Контакт " ++ n ++
                      py " успішно додано до вашої адресної книги!")]).
Proof.
  assert (H : sequence_calls (add_contact_calls (λ _, false) pystr Some)
                [py "Bob"; py "0501234567"; py "Kyiv, Khreshchatyk 1";
                 py "bob@example.com"; py "01-02-1990"; py "next"]
              = (Returned
                   [Accepted (py "Bob"); Accepted (py "0501234567");
                    Accepted (py "Kyiv, Khreshchatyk 1");
                    Accepted (py "bob@example.com");
                    Accepted (py "01-02-1990")],
                 [py "next"],
                 [Prompt prompt_name; Prompt prompt_phone;
                  Prompt prompt_address; Prompt prompt_email;
                  Prompt prompt_birthday]))
    by (vm_compute; reflexivity).
  refine (add_contact_stores (λ _, false) pystr Some ∅ _ _ _ _ H _ _);
    intros Hin;
    repeat (apply elem_of_cons in Hin as [Hin|Hin]; [discriminate Hin|]);
    by apply elem_of_nil in Hin.
Defined.

Lemma edit_contact_name_keeps_key_witness :
  ∃ book' out',
    edit_contact (λ _, false) pystr Some
      {[ py "Bob" := mkRecord pystr (py "Bob") [py "0501234567"] None None None ]}
      [py "Bob"; py "1"; py "Bobby"]
    = (Returned book', [], out')
    ∧ AddressBook_find pystr book' (py "Bob")
      = Some (mkRecord pystr (py "Bobby")
                (phones pystr
                   (mkRecord pystr (py "Bob") [py "0501234567"] None None None))
                (address pystr
                   (mkRecord pystr (py "Bob") [py "0501234567"] None None None))
                (email pystr
                   (mkRecord pystr (py "Bob") [py "0501234567"] None None None))
                (birthday pystr
                   (mkRecord pystr (py "Bob") [py "0501234567"] None None None)))
    ∧ ∀ other, other ≠ py "Bob" →
        AddressBook_find pystr book' other
        = AddressBook_find pystr
            {[ py "Bob" :=
                 mkRecord pystr (py "Bob") [py "0501234567"] None None None ]}
            other.
Proof.
  assert (H : get_name (py "Введіть нове ім'я: ") [py "Bobby"]
              = (Returned (Accepted (py "Bobby")), [],
                 [Prompt (py "Введіть нове ім'я: ")]))
    by (vm_compute; reflexivity).
  exact (edit_contact_name_keeps_key (λ _, false) pystr Some _ (py "Bob")
           (py "Bobby") _ _ _ _ (lookup_singleton_eq _ _) H).
Defined.

Lemma add_contact_then_delete_contact_witness :
  delete_contact pystr
    {[ py "Bob" :=
         mkRecord pystr (py "Bob") [py "0501234567"]
           (Some (py "Kyiv, Khreshchatyk 1")) (Some (py "bob@example.com"))
           (Some (py "01-02-1990")) ]}
    [py "Bob"; py "next"]
  = (Returned ∅, [py "next"],
     [Prompt (py "Введіть ім'я для видалення: ");
      Printed (py "Контакт " ++ py "Bob" ++ py " успішно видалено.")]).
Proof.
  assert (H : add_contact (λ _, false) pystr Some ∅
                [py "Bob"; py "0501234567"; py "Kyiv, Khreshchatyk 1";
                 py "bob@example.com"; py "01-02-1990"]
              = (Returned
                   {[ py "Bob" :=
                        mkRecord pystr (py "Bob") [py "0501234567"]
                          (Some (py "Kyiv, Khreshchatyk 1"))
                          (Some (py "bob@example.com"))
                          (Some (py "01-02-1990")) ]},
                 [],
                 [Prompt prompt_name; Prompt prompt_phone;
                  Prompt prompt_address; Prompt prompt_email;
                  Prompt prompt_birthday;
                  Printed (py "Контакт Bob успішно додано до вашої адресної книги!")]))
    by (vm_compute; reflexivity).
  refine (add_contact_then_delete_contact (λ _, false) pystr Some ∅ _ (py "Bob")
            _ _ [py "next"] _ H (lookup_empty _) _).
  rewrite lookup_singleton_eq. by eexists.
Defined.

(** Of two equal numbers the first is replaced. *)
Lemma edit_phone_replaces_first_witness :
  (true = false
   ∧ mkRecord pystr (py "Bob") [py "0671234567"; py "0501234567"] None None None
     = mkRecord pystr (py "Bob") [py "0501234567"; py "0501234567"] None None None
   ∧ py "0501234567"
     ∉ phones pystr
         (mkRecord pystr (py "Bob") [py "0501234567"; py "0501234567"]
            None None None))
  ∨ (true = true
     ∧ Phone (λ _, false) (py "0671234567") = Returned (py "0671234567")
     ∧ ∃ before after,
         phones pystr
           (mkRecord pystr (py "Bob") [py "0501234567"; py "0501234567"]
              None None None)
         = before ++ py "0501234567" :: after
         ∧ (py "0501234567" ∉ before)
         ∧ mkRecord pystr (py "Bob") [py "0671234567"; py "0501234567"]
             None None None
           = mkRecord pystr
               (name pystr
                  (mkRecord pystr (py "Bob") [py "0501234567"; py "0501234567"]
                     None None None))
               (before ++ py "0671234567" :: after)
               (address pystr
                  (mkRecord pystr (py "Bob") [py "0501234567"; py "0501234567"]
                     None None None))
               (email pystr
                  (mkRecord pystr (py "Bob") [py "0501234567"; py "0501234567"]
                     None None None))
               (birthday pystr
                  (mkRecord pystr (py "Bob") [py "0501234567"; py "0501234567"]
                     None None None))).
Proof.
  apply (edit_phone_replaces_first (λ _, false) pystr
           (mkRecord pystr (py "Bob") [py "0501234567"; py "0501234567"]
              None None None)
           (mkRecord pystr (py "Bob") [py "0671234567"; py "0501234567"]
              None None None)
           (py "0501234567") (py "0671234567") true).
  vm_compute. reflexivity.
Defined.

(** The notebook after a note has been added to the empty notebook. *)
Lemma note_dialogues_keep_keys_witness :
  keyed_by_text {[ py "buy milk" := mkNote (py "buy milk") [py "home"; py "shop"] ]}.
Proof.
  assert (H : add_note ∅ [py "buy milk"; py "home,shop"]
              = (Returned
                   {[ py "buy milk" :=
                        mkNote (py "buy milk") [py "home"; py "shop"] ]},
                 [],
                 [Prompt (py "Введіть текст нотатки: ");
                  Prompt (py "Введіть теги через кому: ");
                  Printed (py "Нотатку успішно додано!")]))
    by (vm_compute; reflexivity).
  exact (note_dialogues_keep_keys ∅ _ _ _ _ (map_Forall_empty _) (or_introl H)).
Defined.
